(** * Phone number manager: the normalisation pipeline of [page.tsx]

    A shallow embedding of [src/my-app/src/app/page.tsx]: [tokenize],
    [cleanToken], the per-token validation inside the [rows] memo, the
    filter / deduplicate / sort steps, the [grouped] memo, and the two
    [useMemo] caches that hold them.

    JavaScript strings are sequences of UTF-16 code units; a code unit is
    an [N].  The numbering-plan library (libphonenumber-js) and the
    engine's [Array.prototype.sort] are not part of the repository: they
    are interfaces ([Authority], [SortEngine]) with concrete instances
    given further down for evaluation. *)

From Stdlib Require Import ZArith NArith Ascii String List Sorted Permutation Lia Bool.
From stdpp Require Import base list gmap sets sorting lexico.

Abbreviation jsstring := (list N) (only parsing).

(** A string literal as code units (ASCII and Latin-1 coincide with
    their code units). *)
Definition js (s : string) : jsstring :=
  N_of_ascii <$> list_ascii_of_string s.

(** ** Character classes of the regular expressions *)

Module Char.

Definition nbsp : N := 160.    (* U+00A0 *)
Definition space : N := 32.
Definition plus : N := 43.
Definition zero : N := 48.

(** [\d] *)
Definition is_digit (c : N) : bool := (48 <=? c)%N && (c <=? 57)%N.

(** [\s] (without the [u] flag): WhiteSpace and LineTerminator code
    points.  [String.prototype.trim] strips the same set. *)
Definition is_space (c : N) : bool :=
  ((9 <=? c)%N && (c <=? 13)%N)          (* \t \n \v \f \r *)
  || (c =? 32)%N || (c =? 160)%N         (* SP, NBSP *)
  || (c =? 5760)%N                       (* U+1680 *)
  || ((8192 <=? c)%N && (c <=? 8202)%N)  (* U+2000 .. U+200A *)
  || (c =? 8232)%N || (c =? 8233)%N      (* U+2028, U+2029 *)
  || (c =? 8239)%N || (c =? 8287)%N      (* U+202F, U+205F *)
  || (c =? 12288)%N || (c =? 65279)%N.   (* U+3000, U+FEFF *)

Definition is_plus (c : N) : bool := (c =? 43)%N.
Definition is_zero (c : N) : bool := (c =? 48)%N.
Definition is_nbsp (c : N) : bool := (c =? 160)%N.

(** [[\n,;\t]] *)
Definition is_delim (c : N) : bool :=
  (c =? 10)%N || (c =? 44)%N || (c =? 59)%N || (c =? 9)%N.

(** [[\d\s\-()]] *)
Definition is_body (c : N) : bool :=
  is_digit c || is_space c || (c =? 45)%N || (c =? 40)%N || (c =? 41)%N.

(** [[^\d+]] is the complement of this class. *)
Definition is_digit_or_plus (c : N) : bool := is_digit c || is_plus c.

End Char.

(** ** A backtracking matcher for the regular expressions of the page

    Every pattern in the file is an alternation of sequences of
    quantified character classes, all quantifiers greedy.  [match_seq]
    follows the backtracking order of the ECMAScript matcher: a
    quantified class first takes as many characters as it can (up to its
    maximum) and gives them back one at a time until the rest of the
    sequence matches. *)

Module Regex.

Record piece := Piece { cls : N → bool; rmin : nat; rmax : option nat }.

Definition seq := list piece.
Definition regex := list seq.

Fixpoint run_len (p : N → bool) (s : jsstring) : nat :=
  match s with
  | c :: s' => if p c then S (run_len p s') else 0
  | [] => 0
  end.

Definition greedy_count (pc : piece) (s : jsstring) : nat :=
  match rmax pc with
  | Some k => Nat.min k (run_len (cls pc) s)
  | None => run_len (cls pc) s
  end.

(** Try [k], [k-1], ..., [lo] repetitions; [cont k] matches the rest
    of the sequence after [k] characters. *)
Fixpoint backtrack (k lo : nat) (cont : nat → option nat) : option nat :=
  if k <? lo then None
  else match cont k with
       | Some n => Some (k + n)
       | None => match k with
                 | S k' => backtrack k' lo cont
                 | O => None
                 end
       end.

(** Length of the match of [ps] at the start of [s], if any. *)
Fixpoint match_seq (ps : seq) (s : jsstring) : option nat :=
  match ps with
  | [] => Some 0
  | pc :: ps' =>
      backtrack (greedy_count pc s) (rmin pc)
                (λ k, match_seq ps' (drop k s))
  end.

Fixpoint match_at (r : regex) (s : jsstring) : option nat :=
  match r with
  | [] => None
  | a :: r' => match match_seq a s with
               | Some n => Some n
               | None => match_at r' s
               end
  end.

(** [String.prototype.split(r)] for a pattern without capture groups
    that never matches the empty string: [skip] counts the characters
    of the current separator still to be passed over, [acc] is the
    piece being collected. *)
Fixpoint split_from (r : regex) (skip : nat) (acc s : jsstring)
  : list jsstring :=
  match s with
  | [] => [acc]
  | c :: s' =>
      match skip with
      | S k => split_from r k acc s'
      | O => match match_at r s with
             | Some (S n) => acc :: split_from r n [] s'
             | _ => split_from r 0 (acc ++ [c]) s'
             end
      end
  end.

Definition split (r : regex) (s : jsstring) : list jsstring :=
  split_from r 0 [] s.

(** [String.prototype.matchAll(r)] with the [g] flag, keeping [m[0]]
    of every match: leftmost match first, the search resumes where the
    match ended. *)
Fixpoint match_all_from (r : regex) (skip : nat) (s : jsstring)
  : list jsstring :=
  match s with
  | [] => []
  | _ :: s' =>
      match skip with
      | S k => match_all_from r k s'
      | O => match match_at r s with
             | Some (S n) => take (S n) s :: match_all_from r n s'
             | _ => match_all_from r 0 s'
             end
      end
  end.

Definition match_all (r : regex) (s : jsstring) : list jsstring :=
  match_all_from r 0 s.

(** What it means for a word to be in the language of a sequence. *)
Inductive Matches : seq → jsstring → Prop :=
| Matches_nil : Matches [] []
| Matches_cons pc ps w1 w2 :
    Forall (λ c, cls pc c = true) w1 →
    rmin pc ≤ length w1 →
    (∀ k, rmax pc = Some k → length w1 ≤ k) →
    Matches ps w2 →
    Matches (pc :: ps) (w1 ++ w2).

End Regex.

(** ** String methods used by the page *)

Module Str.

(** [s.replace(/\u00A0/g, SP)]: every U+00A0 becomes U+0020. *)
Definition replace_nbsp (s : jsstring) : jsstring :=
  (λ c, if Char.is_nbsp c then Char.space else c) <$> s.

Fixpoint drop_while (p : N → bool) (s : jsstring) : jsstring :=
  match s with
  | c :: s' => if p c then drop_while p s' else s
  | [] => []
  end.

(** [s.trim()] *)
Definition trim (s : jsstring) : jsstring :=
  rev (drop_while Char.is_space (rev (drop_while Char.is_space s))).

(** [Boolean(s)] for a string: the empty string is the only falsy
    one. *)
Definition truthy (s : jsstring) : bool :=
  match s with [] => false | _ => true end.

(** [s.includes("+")] *)
Definition includes_plus (s : jsstring) : bool := existsb Char.is_plus s.

(** [A < B] on strings: lexicographic on code units, a proper prefix
    is smaller. *)
Fixpoint lt (a b : jsstring) : bool :=
  match a, b with
  | _, [] => false
  | [], _ :: _ => true
  | x :: a', y :: b' =>
      if (x <? y)%N then true
      else if (y <? x)%N then false
      else lt a' b'
  end.

End Str.

(** ** [tokenize] and [cleanToken] *)

(** [/[\n,;\t]+|\s{2,}/] *)
Definition separator_re : Regex.regex :=
  [ [ Regex.Piece Char.is_delim 1 None ];
    [ Regex.Piece Char.is_space 2 None ] ].

(** [/[+]?\d[\d\s\-()]{5,}\d/] *)
Definition embedded_re : Regex.regex :=
  [ [ Regex.Piece Char.is_plus 0 (Some 1);
      Regex.Piece Char.is_digit 1 (Some 1);
      Regex.Piece Char.is_body 5 None;
      Regex.Piece Char.is_digit 1 (Some 1) ] ].

(** [Array.from(new Set(xs))]: a [Set] iterates in insertion order and
    ignores the insertion of a value it already holds. *)
Definition set_add (acc : list jsstring) (x : jsstring) : list jsstring :=
  if decide (x ∈ acc) then acc else acc ++ [x].

Definition array_from_set (xs : list jsstring) : list jsstring :=
  foldl set_add [] xs.

Definition candidates (input : jsstring) : list jsstring :=
  filter (λ s, Str.truthy s)
    (Str.trim <$> Regex.split separator_re (Str.replace_nbsp input)).

Definition embedded (input : jsstring) : list jsstring :=
  Str.trim <$> Regex.match_all embedded_re input.

Definition tokenize (input : jsstring) : list jsstring :=
  array_from_set (candidates input ++ embedded input).

Definition cleanToken (token : jsstring) : jsstring :=
  let t := filter (λ c, Char.is_digit_or_plus c) token in
  if Str.includes_plus t
  then Char.plus
         :: Str.drop_while Char.is_zero
              (filter (λ c, negb (Char.is_plus c)) t)
  else t.

(** ** The numbering-plan authority (libphonenumber-js) *)

(** A JavaScript call either returns or throws. *)
Inductive completion (A : Type) : Type :=
| Normal (a : A)
| Throw.
Arguments Normal {A} a.
Arguments Throw {A}.

(** [CountryCode] is the library's union of two-letter upper-case
    codes. *)
Inductive letter : Type :=
| LA | LB | LC | LD | LE | LF | LG | LH | LI | LJ | LK | LL | LM
| LN | LO | LP | LQ | LR | LS | LT | LU | LV | LW | LX | LY | LZ.

Definition letter_unit (l : letter) : N :=
  match l with
  | LA => 65 | LB => 66 | LC => 67 | LD => 68 | LE => 69 | LF => 70
  | LG => 71 | LH => 72 | LI => 73 | LJ => 74 | LK => 75 | LL => 76
  | LM => 77 | LN => 78 | LO => 79 | LP => 80 | LQ => 81 | LR => 82
  | LS => 83 | LT => 84 | LU => 85 | LV => 86 | LW => 87 | LX => 88
  | LY => 89 | LZ => 90
  end.

Record CountryCode := CC { cc_fst : letter; cc_snd : letter }.

Definition cc_str (c : CountryCode) : jsstring :=
  [letter_unit (cc_fst c); letter_unit (cc_snd c)].

(** The [PhoneNumber] object: the properties [number] and [country] and
    the results of the three methods the page calls. *)
Record PhoneNumber := {
  number : jsstring;
  country : option CountryCode;
  isValid : completion bool;
  formatInternational : completion jsstring;
  formatNational : completion jsstring
}.

(** The two library functions the page imports; [None] is
    [undefined]. *)
Class Authority := {
  parsePhoneNumberFromString :
    jsstring → jsstring → completion (option PhoneNumber);
  isValidNumberForRegion : jsstring → jsstring → completion bool
}.

(** ** [ParsedRow] and the per-token callback of [tokens.map] *)

Record ParsedRow := {
  raw : jsstring;
  cleaned : jsstring;
  valid : bool;
  e164 : option jsstring;
  international : option jsstring;
  national : option jsstring;
  row_country : option jsstring
}.

(** The [let] variables the [try] block assigns. *)
Record locals := Locals {
  l_valid : bool;
  l_e164 : option jsstring;
  l_international : option jsstring;
  l_national : option jsstring;
  l_country : option jsstring
}.

Definition locals_init : locals := Locals false None None None None.

(** Statements of the [try] block: they read and assign the locals and
    may throw; what was assigned before a throw stays assigned. *)
Definition Try (A : Type) : Type := locals → completion A * locals.

Global Instance Try_ret : MRet Try := λ A a l, (Normal a, l).
Global Instance Try_bind : MBind Try := λ A B k m l,
  match m l with
  | (Normal a, l') => k a l'
  | (Throw, l') => (Throw, l')
  end.

Definition call {A} (c : completion A) : Try A := λ l, (c, l).

Definition set_valid (v : bool) : Try unit := λ l,
  (Normal (), Locals v (l_e164 l) (l_international l) (l_national l) (l_country l)).
Definition set_e164 (v : option jsstring) : Try unit := λ l,
  (Normal (), Locals (l_valid l) v (l_international l) (l_national l) (l_country l)).
Definition set_international (v : option jsstring) : Try unit := λ l,
  (Normal (), Locals (l_valid l) (l_e164 l) v (l_national l) (l_country l)).
Definition set_national (v : option jsstring) : Try unit := λ l,
  (Normal (), Locals (l_valid l) (l_e164 l) (l_international l) v (l_country l)).
Definition set_country (v : option jsstring) : Try unit := λ l,
  (Normal (), Locals (l_valid l) (l_e164 l) (l_international l) (l_national l) v).

(** [try { body } catch (e) {}] *)
Definition try_catch (body : Try unit) : Try unit := λ l,
  (Normal (), (body l).2).

Section Validation.
Context `{Authority}.

(** Lines 69-78. *)
Definition validate_body (cleaned defaultCountry : jsstring) : Try unit :=
  phone ← call (parsePhoneNumberFromString cleaned defaultCountry);
  match phone with
  | None => mret ()
  | Some phone =>
      r ← call (isValidNumberForRegion (number phone) defaultCountry);
      v ← (if r : bool then mret true else call (isValid phone));
      set_valid v;;
      g ← call (isValid phone);
      if g : bool then
        set_e164 (Some (number phone));;
        i ← call (formatInternational phone);
        set_international (Some i);;
        n ← call (formatNational phone);
        set_national (Some n);;
        set_country (cc_str <$> country phone)
      else mret ()
  end.

(** Lines 60-82: the callback of [tokens.map]. *)
Definition parse_token (defaultCountry tok : jsstring) : ParsedRow :=
  let cleaned := cleanToken tok in
  let l := (try_catch (validate_body cleaned defaultCountry) locals_init).2 in
  {| raw := tok; cleaned := cleaned; valid := l_valid l;
     e164 := l_e164 l; international := l_international l;
     national := l_national l; row_country := l_country l |}.

End Validation.

(** ** Filter, deduplicate, sort *)

Record Config := {
  defaultCountry : jsstring;
  onlyValid : bool;
  sortAsc : bool
}.

(** Truthiness of an optional string: [undefined] and the empty
    string are falsy. *)
Definition truthy_opt (o : option jsstring) : bool :=
  match o with
  | Some (_ :: _) => true
  | _ => false
  end.

(** [o || d] for an optional string [o]. *)
Definition js_or (o : option jsstring) (d : jsstring) : jsstring :=
  match o with
  | Some (c :: s) => c :: s
  | _ => d
  end.

(** Line 84: [r => r.valid && r.e164]. *)
Definition keep_valid (r : ParsedRow) : bool :=
  valid r && truthy_opt (e164 r).

(** Line 90: [r.e164 || r.cleaned]. *)
Definition dedup_key (r : ParsedRow) : jsstring :=
  js_or (e164 r) (cleaned r).

(** Lines 87-95: one iteration of the loop over [filtered]; the state
    is the [seen] set and the [dedup] array. *)
Definition dedup_step (st : gset (list N) * list ParsedRow) (r : ParsedRow)
  : gset (list N) * list ParsedRow :=
  let key := dedup_key r in
  if decide (key ∈ st.1) then st
  else ({[ key ]} ∪ st.1, st.2 ++ [r]).

Definition dedup_loop (filtered : list ParsedRow) : list ParsedRow :=
  (foldl dedup_step (∅, []) filtered).2.

(** [s.replace(/\D/g, empty)]: every non-digit is removed. *)
Definition digits_only (s : jsstring) : jsstring :=
  filter (λ c, Char.is_digit c) s.

Definition sort_key (r : ParsedRow) : jsstring :=
  digits_only (dedup_key r).

(** Lines 97-101: the comparator handed to [dedup.sort]. *)
Definition compare_rows (asc : bool) (a b : ParsedRow) : Z :=
  let A := sort_key a in
  let B := sort_key b in
  ((if Str.lt A B then -1 else 1) * (if asc then 1 else -1))%Z.

(** [Array.prototype.sort] belongs to the engine. *)
Class SortEngine := {
  array_sort : ∀ {A : Type}, (A → A → Z) → list A → list A
}.

(** What is assumed of an engine: the result is a rearrangement of the
    array, and it is sorted for every transitive relation that the
    comparator's answers never contradict (a non-positive answer for
    [(x, y)] allows [x] before [y], a non-negative one allows [y] before
    [x]).  For a consistent comparator this is the language's contract;
    for a comparator that answers a tie with the same sign both ways it
    says that the engine still only acts on answers it was given. *)
Definition respects {A} (cmp : A → A → Z) (R : A → A → Prop) : Prop :=
  ∀ x y, ((cmp x y <= 0)%Z → R x y) ∧ ((cmp x y >= 0)%Z → R y x).

Definition lawful (E : SortEngine) : Prop :=
  (∀ A (cmp : A → A → Z) (l : list A), array_sort cmp l ≡ₚ l)
  ∧ (∀ A (cmp : A → A → Z) (R : A → A → Prop) (l : list A),
       (∀ x y z, R x y → R y z → R x z) →
       respects cmp R →
       Sorted R (array_sort cmp l)).

(** ** The two memoised computations *)

Section Pipeline.
Context `{Authority} `{SortEngine}.

(** Lines 58-104, the body of the [rows] memo, stage by stage. *)
Definition parsed (rawText : jsstring) (cfg : Config) : list ParsedRow :=
  parse_token (defaultCountry cfg) <$> tokenize rawText.

Definition filtered (rawText : jsstring) (cfg : Config) : list ParsedRow :=
  if onlyValid cfg then filter (λ r, keep_valid r) (parsed rawText cfg)
  else parsed rawText cfg.

Definition dedup (rawText : jsstring) (cfg : Config) : list ParsedRow :=
  dedup_loop (filtered rawText cfg).

Definition rows (rawText : jsstring) (cfg : Config) : list ParsedRow :=
  array_sort (compare_rows (sortAsc cfg)) (dedup rawText cfg).

End Pipeline.

(** [Record<string, ParsedRow[]>]: the keys are country codes or
    ["Unknown"], never an array index and never a name found on
    [Object.prototype], so the object enumerates its keys in insertion
    order and [map[c]] only ever sees own properties.  It is kept as an
    association list in insertion order. *)
Abbreviation Grouped := (list (list N * list ParsedRow)) (only parsing).

Fixpoint obj_has (c : jsstring) (m : Grouped) : bool :=
  match m with
  | [] => false
  | (k, _) :: m' => if decide (k = c) then true else obj_has c m'
  end.

(** [map[c].push(r)] *)
Fixpoint obj_push (c : jsstring) (r : ParsedRow) (m : Grouped) : Grouped :=
  match m with
  | [] => []
  | (k, l) :: m' =>
      if decide (k = c) then (k, l ++ [r]) :: m'
      else (k, l) :: obj_push c r m'
  end.

(** Line 109: [r.country || "Unknown"]. *)
Definition group_key (r : ParsedRow) : jsstring :=
  js_or (row_country r) (js "Unknown").

(** Lines 108-112: one iteration of the loop over [rows]. *)
Definition grouped_step (m : Grouped) (r : ParsedRow) : Grouped :=
  let c := group_key r in
  let m := if obj_has c m then m else m ++ [(c, [])] in
  obj_push c r m.

(** Lines 106-114, the body of the [grouped] memo. *)
Definition grouped (rows : list ParsedRow) : Grouped :=
  foldl grouped_step [] rows.

(** ** The component's hooks

    [useMemo(f, deps)] keeps the last value together with the
    dependencies it was computed from and calls [f] again only when a
    dependency differs under [Object.is].  The dependencies of [rows]
    are two strings and two booleans, compared by value; the dependency
    of [grouped] is the [rows] array, compared by identity, so an array
    carries the reference it was allocated at. *)

Global Instance Config_eq_dec : EqDecision Config.
Proof. solve_decision. Defined.

Record hooks := Hooks {
  next_ref : nat;
  rows_memo : option ((list N * Config) * (nat * list ParsedRow));
  grouped_memo : option (nat * list (list N * list ParsedRow))
}.

(** The hooks at mount. *)
Definition hooks_init : hooks := Hooks 0 None None.

Section Component.
Context `{Authority} `{SortEngine}.

Definition compute_rows (rawText : jsstring) (cfg : Config) (h : hooks)
  : (nat * list ParsedRow) * hooks :=
  let v := (next_ref h, rows rawText cfg) in
  (v, Hooks (S (next_ref h)) (Some ((rawText, cfg), v)) (grouped_memo h)).

(** Lines 58 and 104. *)
Definition use_rows (rawText : jsstring) (cfg : Config) (h : hooks)
  : (nat * list ParsedRow) * hooks :=
  match rows_memo h with
  | Some (deps, v) =>
      if decide (deps = (rawText, cfg)) then (v, h)
      else compute_rows rawText cfg h
  | None => compute_rows rawText cfg h
  end.

Definition compute_grouped (r : nat * list ParsedRow) (h : hooks)
  : list (list N * list ParsedRow) * hooks :=
  let g := grouped r.2 in
  (g, Hooks (next_ref h) (rows_memo h) (Some (r.1, g))).

(** Lines 106 and 114. *)
Definition use_grouped (r : nat * list ParsedRow) (h : hooks)
  : list (list N * list ParsedRow) * hooks :=
  match grouped_memo h with
  | Some (dep, g) =>
      if decide (dep = r.1) then (g, h) else compute_grouped r h
  | None => compute_grouped r h
  end.

(** One render of [NumberManagerPage] with the given state variables:
    the flat sequence and the grouped view it displays. *)
Definition render (rawText : jsstring) (cfg : Config) (h : hooks)
  : (list ParsedRow * list (list N * list ParsedRow)) * hooks :=
  let '(r, h1) := use_rows rawText cfg h in
  let '(g, h2) := use_grouped r h1 in
  ((r.2, g), h2).

(** What can happen to a mounted component between two renders of
    interest: it renders with some state, or React drops its cached
    values. *)
Inductive event :=
| Render (rawText : list N) (cfg : Config)
| Discard.

Definition step (h : hooks) (e : event) : hooks :=
  match e with
  | Render rawText cfg => (render rawText cfg h).2
  | Discard => Hooks (next_ref h) None None
  end.

Definition run (es : list event) (h : hooks) : hooks := foldl step h es.

End Component.

(** ** The handlers and exports of the page *)

Global Instance ParsedRow_eq_dec : EqDecision ParsedRow.
Proof. solve_decision. Defined.


(** [xs.join(sep)] on an array of strings. *)
Fixpoint join (sep : jsstring) (xs : list jsstring) : jsstring :=
  match xs with
  | [] => []
  | x :: xs' =>
      match xs' with
      | [] => x
      | _ :: _ => x ++ sep ++ join sep xs'
      end
  end.

Definition newline : N := 10.
Definition comma : N := 44.
Definition dquote : N := 34.

(** Line 9: a cell is written between double quotes as it is. *)
Definition csv_cell (cell : jsstring) : jsstring :=
  [dquote] ++ js_or (Some cell) [] ++ [dquote].

Definition csv_line (r : list jsstring) : jsstring :=
  join [comma] (csv_cell <$> r).

(** Line 9: the text [downloadCSV] hands to the [Blob]. *)
Definition csv_text (rows : list (list jsstring)) : jsstring :=
  join [newline] (csv_line <$> rows).

(** Line 180: the rows the export button passes to [downloadCSV]. *)
Definition export_header : list jsstring :=
  [js "E164"; js "International"; js "National"; js "Country"].

Definition export_row (r : ParsedRow) : list jsstring :=
  [js_or (e164 r) []; js_or (international r) [];
   js_or (national r) []; js_or (row_country r) []].

Definition export_csv (rows : list ParsedRow) : jsstring :=
  csv_text (export_header :: (export_row <$> rows)).

(** The [selected] state is a [Set<string>], kept as its elements in
    insertion order.  [delete] removes the element, [add] appends it
    unless it is there. *)
Definition set_delete (s : list jsstring) (x : jsstring) : list jsstring :=
  filter (λ y, y ≠ x) s.

(** Lines 116-123: the updater [toggleSelect] passes to
    [setSelected]. *)
Definition toggleSelect (prev : list jsstring) (num : jsstring)
  : list jsstring :=
  let newSet := array_from_set prev in
  if decide (num ∈ newSet) then set_delete newSet num
  else set_add newSet num.

(** Lines 232-233: the key a row's checkbox reads and toggles, the
    row's [e164] or else the empty string. *)
Definition select_key (r : ParsedRow) : jsstring := js_or (e164 r) [].

Definition checked (selected : list jsstring) (r : ParsedRow) : bool :=
  bool_decide (select_key r ∈ selected).

(** Line 187, [Array.from(selected).join("\n")], and line 208,
    [list.map(r => r.e164).join("\n")]; [join] writes [undefined] as
    the empty string. *)
Definition copy_selected (selected : list jsstring) : jsstring :=
  join [newline] selected.

Definition copy_all (l : list ParsedRow) : jsstring :=
  join [newline] ((λ r, default [] (e164 r)) <$> l).

(** Lines 133-134: the text built from the parsed file,
    [results.data.flat().join("\n")], and the updater given to
    [setRawText]. *)
Definition upload_text (data : list (list jsstring)) : jsstring :=
  join [newline] (concat data).

Definition append_upload (prev text : jsstring) : jsstring :=
  (if Str.truthy prev then prev ++ [newline] else []) ++ text.

(** ** Engines and authorities to evaluate with *)

(** Insertion sort, asking the comparator whether the new element goes
    before the one it is looking at. *)
Fixpoint insert_before {A} (cmp : A → A → Z) (x : A) (l : list A) : list A :=
  match l with
  | [] => [x]
  | y :: l' =>
      if (cmp x y <? 0)%Z then x :: y :: l'
      else y :: insert_before cmp x l'
  end.

Definition insertion_sort {A} (cmp : A → A → Z) (l : list A) : list A :=
  foldl (λ acc x, insert_before cmp x acc) [] l.

(** The same, asking whether the element it is looking at goes after
    the new one. *)
Fixpoint insert_unless_after {A} (cmp : A → A → Z) (x : A) (l : list A)
  : list A :=
  match l with
  | [] => [x]
  | y :: l' =>
      if (0 <? cmp y x)%Z then x :: y :: l'
      else y :: insert_unless_after cmp x l'
  end.

Definition insertion_sort' {A} (cmp : A → A → Z) (l : list A) : list A :=
  foldl (λ acc x, insert_unless_after cmp x acc) [] l.

Definition insertion_engine : SortEngine :=
  {| array_sort := @insertion_sort |}.

Definition insertion_engine' : SortEngine :=
  {| array_sort := @insertion_sort' |}.

(** A small numbering plan: Nepal (+977), the United Kingdom (+44) and
    the United States (+1) with ten-digit national numbers, and the
    non-geographic code +800 with eight digits and no country.  A string
    without [+] is read as a national number of the default region; a
    region outside the plan makes the region check throw. *)
Definition np : CountryCode := CC LN LP.
Definition gb : CountryCode := CC LG LB.
Definition us : CountryCode := CC LU LS.

Definition has_prefix (p s : jsstring) : bool :=
  bool_decide (take (length p) s = p).

Definition plan_phone (cc : jsstring) (c : option CountryCode) (len : nat)
    (digits : jsstring) : PhoneNumber :=
  {| number := Char.plus :: cc ++ digits;
     country := c;
     isValid := Normal (bool_decide (length digits = len));
     formatInternational := Normal (Char.plus :: cc ++ Char.space :: digits);
     formatNational := Normal digits |}.

Definition plan_parse (s region : jsstring) : option PhoneNumber :=
  match s with
  | [] => None
  | c :: rest =>
      if Char.is_plus c then
        if has_prefix (js "977") rest
        then Some (plan_phone (js "977") (Some np) 10 (drop 3 rest))
        else if has_prefix (js "800") rest
        then Some (plan_phone (js "800") None 8 (drop 3 rest))
        else if has_prefix (js "44") rest
        then Some (plan_phone (js "44") (Some gb) 10 (drop 2 rest))
        else if has_prefix (js "1") rest
        then Some (plan_phone (js "1") (Some us) 10 (drop 1 rest))
        else None
      else if length s <? 7 then None
      else if bool_decide (region = js "NP")
      then Some (plan_phone (js "977") (Some np) 10 s)
      else if bool_decide (region = js "GB")
      then Some (plan_phone (js "44") (Some gb) 10 s)
      else if bool_decide (region = js "US")
      then Some (plan_phone (js "1") (Some us) 10 s)
      else None
  end.

Definition plan_valid_for_region (num region : jsstring) : completion bool :=
  if bool_decide (region = js "NP")
  then Normal (has_prefix (js "+977") num && bool_decide (length num = 14))
  else if bool_decide (region = js "GB")
  then Normal (has_prefix (js "+44") num && bool_decide (length num = 13))
  else if bool_decide (region = js "US")
  then Normal (has_prefix (js "+1") num && bool_decide (length num = 12))
  else Throw.

Definition plan_authority : Authority := {|
  parsePhoneNumberFromString s region := Normal (plan_parse s region);
  isValidNumberForRegion := plan_valid_for_region
|}.

(** An authority whose region check accepts what its general check
    rejects. *)
Definition region_only_authority : Authority := {|
  parsePhoneNumberFromString s region :=
    Normal (Some {| number := s; country := None; isValid := Normal false;
                    formatInternational := Normal s;
                    formatNational := Normal s |});
  isValidNumberForRegion _ _ := Normal true
|}.

(** First occurrences by key, the declarative reading of the three
    insert-if-absent loops of the page ([new Set(..)], the [seen] loop
    and the [map] loop). *)
Section Firsts.
Context {A K : Type} `{EqDecision K} (key : A → K).

Fixpoint firsts_by (l : list A) : list A :=
  match l with
  | [] => []
  | x :: l' => x :: filter (λ y, key y ≠ key x) (firsts_by l')
  end.

End Firsts.

(** The deduplication key read to the letter, [e164] if the field is
    set and [cleaned] otherwise, to compare with the key of line 90,
    which also passes over an [e164] that is the empty string. *)
Definition key_as_claimed (r : ParsedRow) : jsstring :=
  match e164 r with
  | Some s => s
  | None => cleaned r
  end.

(** [x] may stand before [y]: the digit-only key of [x] is not after
    that of [y] in string order (ascending), or not before it
    (descending). *)
Definition in_order (asc : bool) (x y : ParsedRow) : Prop :=
  if asc then Str.lt (sort_key y) (sort_key x) = false
  else Str.lt (sort_key x) (sort_key y) = false.

(** The cached values agree with their dependencies: the [rows] cell
    holds the flat sequence of the inputs stored with it, and the
    [grouped] cell, when it refers to the array in the [rows] cell,
    holds the grouping of that array.  References handed out so far are
    below [next_ref]. *)
Definition coherent `{Authority} `{SortEngine} (h : hooks) : Prop :=
  (∀ deps a l, rows_memo h = Some (deps, (a, l)) →
     l = rows deps.1 deps.2 ∧ a < next_ref h)
  ∧ (∀ a g, grouped_memo h = Some (a, g) →
       a < next_ref h
       ∧ ∀ deps l, rows_memo h = Some (deps, (a, l)) → g = grouped l).

(** The record of a token the authority could not parse. *)
Definition invalid_row (tok : jsstring) : ParsedRow :=
  {| raw := tok; cleaned := cleanToken tok; valid := false;
     e164 := None; international := None; national := None;
     row_country := None |}.

(** Configurations and inputs to evaluate with. *)
Definition config (dc : string) (only asc : bool) : Config :=
  {| defaultCountry := js dc; onlyValid := only; sortAsc := asc |}.

Definition tie_inputs : list (list N) :=
  [ js "+123, 123"; js "+9779812345678, 9779812345678" ].

(** How often a code unit occurs in a string. *)
Definition count_char (c : N) (s : jsstring) : nat :=
  length (filter (λ x, x = c) s).

(** Four empty cells, the exported line of a record without canonical
    fields. *)
Definition empty_export_line : jsstring :=
  join [comma] (replicate 4 [dquote; dquote]).

(** What the separator pattern matches at the start of a string: a run
    of delimiters if there is one, else a run of two or more white-space
    characters. *)
Definition sep_len (s : jsstring) : option nat :=
  let d := Regex.run_len Char.is_delim s in
  if d <? 1
  then let w := Regex.run_len Char.is_space s in
       if w <? 2 then None else Some w
  else Some d.

(** No two white-space characters in a row. *)
Fixpoint no_ws_pair (p : jsstring) : bool :=
  match p with
  | a :: t =>
      match t with
      | b :: _ => negb (Char.is_space a && Char.is_space b) && no_ws_pair t
      | [] => true
      end
  | [] => true
  end.

(** A piece between two separators. *)
Definition piece_ok (p : jsstring) : Prop :=
  Forall (λ c, Char.is_delim c = false) p ∧ no_ws_pair p = true.

(** A well-formed candidate token. *)
Definition candidate_ok (t : jsstring) : Prop :=
  t ≠ [] ∧ Str.trim t = t
  ∧ Forall (λ c, Char.is_delim c = false ∧ c ≠ Char.nbsp) t
  ∧ no_ws_pair t = true.

(** The trimmed, non-empty pieces of a split, as [candidates] keeps
    them. *)
Definition kept_pieces (l : list jsstring) : list jsstring :=
  filter (λ s, Str.truthy s) (Str.trim <$> l).

(** A number in E.164 form: [+], a first digit that is not zero, more
    digits. *)
Definition e164_shape (k : jsstring) : Prop :=
  ∃ d ds, k = Char.plus :: d :: ds
          ∧ Char.is_digit d = true ∧ d ≠ Char.zero
          ∧ Forall (λ c, Char.is_digit c = true) ds.

(** What follows a number in a text of numbers joined by newlines:
    nothing, or a newline and the [+] of the next number. *)
Definition tail_ok (t : jsstring) : Prop :=
  t = [] ∨ ∃ t', t = newline :: Char.plus :: t'.

(** The shape of an embedded match: an optional [+], a digit, five or
    more characters of the class [[\d\s\-()]], a final digit. *)
Definition embedded_shape (m : jsstring) : Prop :=
  ∃ p d body e,
    m = p ++ d :: body ++ [e]
    ∧ (p = [] ∨ p = [Char.plus])
    ∧ Char.is_digit d = true
    ∧ 5 ≤ length body
    ∧ Forall (λ c, Char.is_body c = true) body
    ∧ Char.is_digit e = true.

(** The tokenizer as the specification words it, with the embedded
    scan over the text in which U+00A0 has been replaced. *)
Definition tokenize_normalised_scan (input : jsstring) : list jsstring :=
  let text := Str.replace_nbsp input in
  array_from_set
    (candidates input ++ (Str.trim <$> Regex.match_all embedded_re text)).

(** A digit, a no-break space, six digits. *)
Definition nbsp_input : jsstring := js "1" ++ [Char.nbsp] ++ js "234567".

(** * Properties *)

(** ** The matcher is sound for the language of a sequence *)

Module RegexFacts.
Import Regex.

Lemma run_len_le p s : run_len p s ≤ length s.
Proof. induction s as [|c s IH]; simpl; [lia|]. destruct (p c); simpl; lia. Qed.

Lemma run_len_take p s k :
  k ≤ run_len p s → Forall (λ c, p c = true) (take k s).
Proof.
  revert k. induction s as [|c s IH]; intros k Hk.
  - rewrite take_nil. constructor.
  - destruct k as [|k]; [constructor|]. simpl in *.
    destruct (p c) eqn:Hc; [|lia].
    constructor; [done|]. apply IH. lia.
Qed.

Lemma greedy_count_le_run pc s : greedy_count pc s ≤ run_len (cls pc) s.
Proof. unfold greedy_count. destruct (rmax pc); lia. Qed.

Lemma greedy_count_le_max pc s k : rmax pc = Some k → greedy_count pc s ≤ k.
Proof. unfold greedy_count. intros ->. lia. Qed.

Lemma backtrack_sound k lo cont n :
  backtrack k lo cont = Some n →
  ∃ j m, lo ≤ j ∧ j ≤ k ∧ cont j = Some m ∧ n = j + m.
Proof.
  induction k as [|k IH]; simpl.
  - destruct (0 <? lo) eqn:Hlo; [done|].
    apply Nat.ltb_ge in Hlo.
    destruct (cont 0) as [m|] eqn:Hc; [|done].
    intros [= <-]. exists 0, m. repeat split; [lia|lia|done].
  - destruct (S k <? lo) eqn:Hlo; [done|].
    apply Nat.ltb_ge in Hlo.
    destruct (cont (S k)) as [m|] eqn:Hc.
    + intros [= <-]. exists (S k), m. repeat split; [lia|lia|done].
    + intros Hb. destruct (IH Hb) as (j & m & ? & ? & ? & ?).
      exists j, m. repeat split; [lia|lia|done|done].
Qed.

Lemma take_add_drop {X} (s : list X) j m :
  take (j + m) s = take j s ++ take m (drop j s).
Proof.
  revert j. induction s as [|c s IH]; intros j.
  - by rewrite drop_nil, !take_nil.
  - destruct j as [|j]; simpl; [done|]. by rewrite IH.
Qed.

Lemma match_seq_sound ps s n :
  match_seq ps s = Some n → n ≤ length s ∧ Matches ps (take n s).
Proof.
  revert s n. induction ps as [|pc ps IH]; intros s n; simpl.
  - intros [= <-]. split; [lia|]. rewrite take_0. constructor.
  - intros Hb. apply backtrack_sound in Hb as (j & m & Hlo & Hj & Hc & ->).
    apply IH in Hc as [Hm HM].
    assert (Hjr : j ≤ run_len (cls pc) s)
      by (pose proof (greedy_count_le_run pc s); lia).
    pose proof (run_len_le (cls pc) s) as Hrl.
    rewrite length_drop in Hm.
    split; [lia|].
    rewrite take_add_drop. constructor; [by apply run_len_take| | |done].
    + rewrite length_take. lia.
    + intros k Hk. rewrite length_take.
      pose proof (greedy_count_le_max pc s k Hk). lia.
Qed.

Lemma match_at_sound r s n :
  match_at r s = Some n → ∃ ps, ps ∈ r ∧ n ≤ length s ∧ Matches ps (take n s).
Proof.
  induction r as [|a r IH]; simpl; [done|].
  destruct (match_seq a s) as [k|] eqn:Ha.
  - intros [= <-]. exists a. apply match_seq_sound in Ha as [? ?].
    split; [left|done].
  - intros Hr. destruct (IH Hr) as (ps & ? & ?).
    exists ps. split; [by right|done].
Qed.

(** Every element of [matchAll] is a match of the pattern and a
    contiguous piece of the subject. *)
Lemma match_all_from_elem r skip s m :
  m ∈ match_all_from r skip s →
  ∃ pre post ps, s = pre ++ m ++ post ∧ ps ∈ r ∧ Matches ps m ∧ m ≠ [].
Proof.
  revert skip. induction s as [|c s IH]; intros skip; simpl.
  - intros Hm. by apply elem_of_nil in Hm.
  - assert (Hrec : ∀ k, m ∈ match_all_from r k s →
      ∃ pre post ps, c :: s = pre ++ m ++ post ∧ ps ∈ r ∧ Matches ps m ∧ m ≠ []).
    { intros k Hk. destruct (IH k Hk) as (pre & post & ps & -> & ? & ? & ?).
      by exists (c :: pre), post, ps. }
    destruct skip as [|k]; [|by apply Hrec].
    destruct (match_at r (c :: s)) as [[|n]|] eqn:Hat; try by apply Hrec.
    intros [->|Hin]%elem_of_cons; [|by apply (Hrec n)].
    apply match_at_sound in Hat as (ps & Hps & Hlen & HM).
    exists [], (drop (S n) (c :: s)), ps.
    split; [exact (eq_sym (take_drop (S n) (c :: s)))|]. done.
Qed.

End RegexFacts.

(** ** First occurrences *)

Section FirstsFacts.
Context {A K : Type} `{EqDecision K} (key : A → K).

Lemma firsts_by_keys l k :
  k ∈ key <$> firsts_by key l ↔ k ∈ key <$> l.
Proof.
  induction l as [|x l IH]; [done|]. simpl.
  rewrite !elem_of_cons, <- IH. split.
  - intros [->|Hk]; [by left|right].
    apply list_elem_of_fmap in Hk as (y & -> & Hy).
    apply list_elem_of_filter in Hy as [_ Hy].
    by apply list_elem_of_fmap_2.
  - intros [->|Hk]; [by left|].
    destruct (decide (k = key x)) as [->|Hne]; [by left|right].
    apply list_elem_of_fmap in Hk as (y & -> & Hy).
    apply list_elem_of_fmap_2, list_elem_of_filter. done.
Qed.

Lemma firsts_by_sublist l : firsts_by key l `sublist_of` l.
Proof.
  induction l as [|x l IH]; [constructor|]. simpl.
  apply sublist_skip. etrans; [apply sublist_filter|done].
Qed.

Lemma firsts_by_NoDup l : NoDup (key <$> firsts_by key l).
Proof.
  induction l as [|x l IH]; simpl; [constructor|].
  apply NoDup_cons. split.
  - intros (y & Hy & Hin)%list_elem_of_fmap.
    apply list_elem_of_filter in Hin as [Hne _]. by apply Hne.
  - eapply sublist_NoDup; [exact IH|]. apply fmap_sublist, sublist_filter.
Qed.

(** An element that is kept has nothing with its key before it. *)
Lemma firsts_by_first l r :
  r ∈ firsts_by key l →
  ∃ pre post, l = pre ++ r :: post ∧ key r ∉ key <$> pre.
Proof.
  induction l as [|x l IH]; simpl; [by intros ?%elem_of_nil|].
  intros [->|Hin]%elem_of_cons.
  - exists [], l. split; [done|]. apply not_elem_of_nil.
  - apply list_elem_of_filter in Hin as [Hne Hin].
    destruct (IH Hin) as (pre & post & -> & Hpre).
    exists (x :: pre), post. split; [done|].
    simpl. by intros [?|?]%elem_of_cons.
Qed.

Lemma firsts_by_snoc l x :
  firsts_by key (l ++ [x])
  = if decide (key x ∈ key <$> l) then firsts_by key l
    else firsts_by key l ++ [x].
Proof.
  induction l as [|a l IH].
  - done.
  - simpl. rewrite IH. destruct (decide (key x ∈ key <$> l)) as [Hin|Hin].
    + rewrite decide_True; [done|apply elem_of_cons; by right].
    + rewrite filter_app, filter_cons, filter_nil.
      destruct (decide (key x ≠ key a)) as [Hne|Heq];
        destruct (decide (key x ∈ _ :: _)) as [Hin'|Hin']; simpl.
      * apply elem_of_cons in Hin' as [?|?]; done.
      * done.
      * by rewrite app_nil_r.
      * exfalso. apply Hin', elem_of_cons. left.
        by destruct (decide (key x = key a)).
Qed.

End FirstsFacts.

Lemma firsts_by_id_elem {A} `{EqDecision A} (l : list A) x :
  x ∈ firsts_by id l ↔ x ∈ l.
Proof.
  pose proof (firsts_by_keys id l x) as Hk.
  by rewrite !list_fmap_id in Hk.
Qed.

Lemma firsts_by_id_NoDup {A} `{EqDecision A} (l : list A) :
  NoDup (firsts_by id l).
Proof.
  pose proof (firsts_by_NoDup id l) as Hk. by rewrite list_fmap_id in Hk.
Qed.

(** [Array.from(new Set(xs))] keeps the first occurrence of every
    value. *)
Lemma array_from_set_firsts xs : array_from_set xs = firsts_by id xs.
Proof.
  unfold array_from_set.
  induction xs as [|x xs IH] using rev_ind; [done|].
  rewrite foldl_snoc, IH, firsts_by_snoc, list_fmap_id. unfold set_add.
  destruct (decide (x ∈ firsts_by id xs)) as [Hin|Hin];
    rewrite firsts_by_id_elem in Hin.
  - by rewrite decide_True.
  - by rewrite decide_False.
Qed.

Lemma firsts_by_id_app (xs ys : list (list N)) :
  firsts_by id (xs ++ ys)
  = firsts_by id xs ++ filter (λ y, y ∉ xs) (firsts_by id ys).
Proof.
  induction ys as [|y ys IH] using rev_ind.
  - by rewrite !app_nil_r.
  - rewrite app_assoc, !firsts_by_snoc, !list_fmap_id, IH. simpl.
    destruct (decide (y ∈ ys)) as [Hys|Hys].
    + rewrite decide_True; [done|]. apply elem_of_app. by right.
    + rewrite filter_app, filter_cons, filter_nil.
      destruct (decide (y ∈ xs)) as [Hxs|Hxs].
      * rewrite decide_True by (apply elem_of_app; by left).
        rewrite decide_False by (by intros ?). by rewrite app_nil_r.
      * rewrite decide_False by (by intros [?|?]%elem_of_app).
        rewrite decide_True by done. by rewrite app_assoc.
Qed.

(** ** The tokenizer *)

Lemma trim_id s c s' e t :
  s = c :: s' → s = t ++ [e] →
  Char.is_space c = false → Char.is_space e = false →
  Str.trim s = s.
Proof.
  intros Hc He Hsc Hse. unfold Str.trim.
  rewrite Hc. simpl. rewrite Hsc, <- Hc, He.
  rewrite rev_app_distr. simpl. rewrite Hse.
  change (e :: rev t) with (rev [e] ++ rev t).
  by rewrite <- rev_app_distr, rev_involutive.
Qed.

Lemma digit_not_space c : Char.is_digit c = true → Char.is_space c = false.
Proof.
  unfold Char.is_digit, Char.is_space. intros Hd.
  apply andb_true_iff in Hd as [H1 H2].
  apply N.leb_le in H1. apply N.leb_le in H2.
  repeat (apply orb_false_iff; split);
    try (apply N.eqb_neq; lia);
    apply andb_false_iff; [right|left]; apply N.leb_gt; lia.
Qed.

Lemma plus_not_space : Char.is_space Char.plus = false.
Proof. reflexivity. Qed.

Lemma embedded_re_shape m :
  Regex.Matches
    [ Regex.Piece Char.is_plus 0 (Some 1);
      Regex.Piece Char.is_digit 1 (Some 1);
      Regex.Piece Char.is_body 5 None;
      Regex.Piece Char.is_digit 1 (Some 1) ] m →
  embedded_shape m.
Proof.
  intros HM.
  inversion HM as [|? ? p w2 Hp _ Hpmax HM2]; subst; simpl in *.
  inversion HM2 as [|? ? wd w3 Hd Hdmin Hdmax HM3]; subst; simpl in *.
  inversion HM3 as [|? ? body w4 Hb Hbmin _ HM4]; subst; simpl in *.
  inversion HM4 as [|? ? we w5 He Hemin Hemax HM5]; subst; simpl in *.
  inversion HM5; subst.
  specialize (Hpmax 1 eq_refl). specialize (Hdmax 1 eq_refl).
  specialize (Hemax 1 eq_refl).
  destruct wd as [|d [|? ?]]; simpl in *; try lia.
  destruct we as [|e [|? ?]]; simpl in *; try lia.
  apply Forall_cons in Hd as [Hd _]. apply Forall_cons in He as [He _].
  exists p, d, body, e.
  split; [done|]. split; [|done].
  destruct p as [|c [|? ?]]; simpl in *; try lia; [by left|right].
  apply Forall_cons in Hp as [Hp _]. unfold Char.is_plus in Hp.
  apply N.eqb_eq in Hp. by subst.
Qed.

Lemma embedded_shape_trim m : embedded_shape m → Str.trim m = m.
Proof.
  intros (p & d & body & e & -> & Hp & Hd & _ & _ & He).
  apply digit_not_space in Hd, He.
  destruct Hp as [->| ->]; simpl.
  - eapply (trim_id _ d (body ++ [e]) e (d :: body)); done.
  - eapply (trim_id _ Char.plus (d :: body ++ [e]) e (Char.plus :: d :: body));
      try done.
Qed.

Lemma match_all_embedded input m :
  m ∈ Regex.match_all embedded_re input →
  embedded_shape m ∧ ∃ pre post, input = pre ++ m ++ post.
Proof.
  intros Hm.
  apply RegexFacts.match_all_from_elem in Hm
    as (pre & post & ps & -> & Hps & HM & _).
  apply list_elem_of_singleton in Hps as ->.
  split; [by apply embedded_re_shape|by exists pre, post].
Qed.

(** C8, as the code has it: the embedded scan reads the raw input (a
    U+00A0 in it is not replaced first), every embedded match is a
    contiguous piece of that input made of an optional [+], a digit,
    five or more characters that are digits, white space of any kind
    ([\s], which includes tab, newline and U+00A0), hyphens or
    parentheses, and a final digit; the tokens are the delimiter-split
    pieces of the normalised text without repetition, followed by the
    embedded matches not among them, without repetition, each in order
    of first occurrence. *)
Theorem tokenize_embedded_scan (input : list N) :
  Forall (λ m, embedded_shape m ∧ ∃ pre post, input = pre ++ m ++ post)
         (embedded input)
  ∧ tokenize input
    = firsts_by id (candidates input)
      ++ filter (λ m, m ∉ candidates input) (firsts_by id (embedded input))
  ∧ NoDup (tokenize input).
Proof.
  split; [|split].
  - apply Forall_forall. intros m Hm. unfold embedded in Hm.
    apply list_elem_of_fmap in Hm as (m' & -> & Hm').
    apply match_all_embedded in Hm' as [Hs Hsub].
    by rewrite (embedded_shape_trim _ Hs).
  - unfold tokenize. by rewrite array_from_set_firsts, firsts_by_id_app.
  - unfold tokenize. rewrite array_from_set_firsts. apply firsts_by_id_NoDup.
Qed.

(** C8 as stated fails: on [nbsp_input] the embedded match keeps the
    U+00A0, so the tokenizer returns a second token that a scan of the
    normalised text would not produce. *)
Lemma embedded_scan_sees_nbsp :
  tokenize nbsp_input = [js "1 234567"; nbsp_input]
  ∧ tokenize_normalised_scan nbsp_input = [js "1 234567"]
  ∧ Exists (λ m, Char.nbsp ∈ m) (embedded nbsp_input).
Proof.
  split; [by vm_compute|]. split; [by vm_compute|].
  apply Exists_cons_hd. apply (bool_decide_unpack _). by vm_compute.
Qed.

(** ** The cleaner *)

Lemma digit_not_plus c : Char.is_digit c = true → Char.is_plus c = false.
Proof.
  unfold Char.is_digit, Char.is_plus. intros Hd.
  apply andb_true_iff in Hd as [H1 _]. apply N.leb_le in H1.
  apply N.eqb_neq. lia.
Qed.

Lemma filter_digits_of_kept (l : list N) :
  filter (λ c, negb (Char.is_plus c)) (filter (λ c, Char.is_digit_or_plus c) l)
  = filter (λ c, Char.is_digit c) l.
Proof.
  rewrite list_filter_filter. apply list_filter_iff. intros c.
  unfold Char.is_digit_or_plus.
  destruct (Char.is_digit c) eqn:Hd; simpl.
  - rewrite (digit_not_plus c Hd). simpl. tauto.
  - destruct (Char.is_plus c); simpl; tauto.
Qed.

Lemma includes_plus_kept (l : list N) :
  Str.includes_plus (filter (λ c, Char.is_digit_or_plus c) l)
  = Str.includes_plus l.
Proof.
  unfold Str.includes_plus.
  induction l as [|c l IH]; [done|].
  rewrite filter_cons.
  destruct (decide (Char.is_digit_or_plus c)) as [Hk|Hk]; simpl.
  - by rewrite IH.
  - rewrite IH. unfold Char.is_digit_or_plus in Hk.
    destruct (Char.is_plus c); [|done].
    rewrite orb_true_r in Hk. by destruct Hk.
Qed.

Lemma kept_without_plus (l : list N) :
  Str.includes_plus l = false →
  filter (λ c, Char.is_digit_or_plus c) l = filter (λ c, Char.is_digit c) l.
Proof.
  unfold Str.includes_plus. intros Hnp.
  induction l as [|c l IH]; [done|]. simpl in Hnp.
  apply orb_false_iff in Hnp as [Hc Hl].
  rewrite !filter_cons, (IH Hl).
  assert (Hiff : Char.is_digit_or_plus c = Char.is_digit c)
    by (unfold Char.is_digit_or_plus; by rewrite Hc, orb_false_r).
  destruct (decide (Char.is_digit_or_plus c)) as [Hk|Hk];
    destruct (decide (Char.is_digit c)) as [Hd|Hd];
    rewrite Hiff in Hk; done.
Qed.

Lemma filter_digits_Forall (l : list N) :
  Forall (λ c, Char.is_digit c = true) (filter (λ c, Char.is_digit c) l).
Proof.
  apply Forall_forall. intros c [Hc _]%list_elem_of_filter.
  by apply Is_true_true.
Qed.

Lemma drop_while_Forall (P : N → Prop) p l :
  Forall P l → Forall P (Str.drop_while p l).
Proof.
  induction 1 as [|c l Hc Hl IH]; simpl; [constructor|].
  destruct (p c); [done|by constructor].
Qed.

Lemma drop_while_head p l c : head (Str.drop_while p l) = Some c → p c = false.
Proof.
  induction l as [|x l IH]; simpl; [done|].
  destruct (p x) eqn:Hx; [done|]. simpl. by intros [= <-].
Qed.

(** C6: [cleanToken] keeps the digits and [+] signs of the token; with
    a [+] among them the result is a single [+] followed by the digits
    without their leading zeros, without one it is the digits as they
    are.  So a cleaned token is made of digits, with at most one [+], in
    front, and then no zero right after it. *)
Theorem cleanToken_spec (token : list N) :
  cleanToken token
  = (if Str.includes_plus (filter (λ c, Char.is_digit_or_plus c) token)
     then Char.plus
            :: Str.drop_while Char.is_zero (filter (λ c, Char.is_digit c) token)
     else filter (λ c, Char.is_digit c) token)
  ∧ ∃ ds, Forall (λ c, Char.is_digit c = true) ds
          ∧ (cleanToken token = ds
             ∨ (cleanToken token = Char.plus :: ds ∧ head ds ≠ Some Char.zero)).
Proof.
  unfold cleanToken. rewrite filter_digits_of_kept, includes_plus_kept.
  destruct (Str.includes_plus token) eqn:Hp.
  - split; [done|].
    exists (Str.drop_while Char.is_zero (filter (λ c, Char.is_digit c) token)).
    split; [apply drop_while_Forall, filter_digits_Forall|].
    right. split; [done|]. intros Hz. by apply drop_while_head in Hz.
  - rewrite (kept_without_plus _ Hp). split; [done|].
    exists (filter (λ c, Char.is_digit c) token).
    split; [apply filter_digits_Forall|by left].
Qed.

Example cleanToken_international :
  cleanToken (js "+00044 (20) 7183-8750") = js "+442071838750".
Proof. by vm_compute. Qed.

Example cleanToken_domestic :
  cleanToken (js "014-555-0134") = js "0145550134".
Proof. by vm_compute. Qed.

(** ** String comparison is a strict total order *)

Lemma str_lt_irrefl a : Str.lt a a = false.
Proof.
  induction a as [|x a IH]; simpl; [done|].
  by rewrite N.ltb_irrefl.
Qed.

Lemma str_lt_asym a b : Str.lt a b = true → Str.lt b a = false.
Proof.
  revert b. induction a as [|x a IH]; intros [|y b]; simpl; try done.
  destruct (x <? y)%N eqn:Hxy.
  - apply N.ltb_lt in Hxy. intros _.
    replace (y <? x)%N with false by (symmetry; apply N.ltb_ge; lia). done.
  - destruct (y <? x)%N eqn:Hyx; [done|]. apply IH.
Qed.

Lemma str_lt_total a b : Str.lt a b = false → Str.lt b a = false → a = b.
Proof.
  revert b. induction a as [|x a IH]; intros [|y b]; simpl; try done.
  destruct (x <? y)%N eqn:Hxy; [done|].
  destruct (y <? x)%N eqn:Hyx; [done|].
  apply N.ltb_ge in Hxy, Hyx. intros H1 H2.
  f_equal; [lia|by apply IH].
Qed.

(** [a <= b] read as [not (b < a)] is transitive. *)
Lemma str_le_trans a b c :
  Str.lt b a = false → Str.lt c b = false → Str.lt c a = false.
Proof.
  revert b c. induction a as [|x a IH]; intros [|y b] [|z c]; simpl; try done.
  destruct (y <? x)%N eqn:Hyx; [done|].
  destruct (x <? y)%N eqn:Hxy.
  - intros _. destruct (z <? y)%N eqn:Hzy; [done|].
    apply N.ltb_lt in Hxy. apply N.ltb_ge in Hzy.
    replace (z <? x)%N with false by (symmetry; apply N.ltb_ge; lia).
    replace (x <? z)%N with true by (symmetry; apply N.ltb_lt; lia). done.
  - apply N.ltb_ge in Hyx, Hxy. assert (x = y) by lia. subst y.
    intros Hba. destruct (z <? x)%N; [done|].
    destruct (x <? z)%N; [done|]. by apply IH.
Qed.

(** ** The comparator and the order it induces *)

Lemma compare_rows_values asc a b :
  compare_rows asc a b = (-1)%Z ∨ compare_rows asc a b = 1%Z.
Proof.
  unfold compare_rows.
  destruct (Str.lt (sort_key a) (sort_key b)), asc; simpl; auto.
Qed.

Lemma compare_rows_symmetric_iff asc a b :
  compare_rows asc a b = compare_rows asc b a ↔ sort_key a = sort_key b.
Proof.
  unfold compare_rows. split.
  - destruct (Str.lt (sort_key a) (sort_key b)) eqn:Hab;
      destruct (Str.lt (sort_key b) (sort_key a)) eqn:Hba.
    + apply str_lt_asym in Hab. congruence.
    + destruct asc; simpl; lia.
    + destruct asc; simpl; lia.
    + intros _. by apply str_lt_total.
  - intros ->. done.
Qed.

Lemma in_order_trans asc x y z :
  in_order asc x y → in_order asc y z → in_order asc x z.
Proof.
  unfold in_order. destruct asc; intros Hxy Hyz.
  - exact (str_le_trans _ _ _ Hxy Hyz).
  - exact (str_le_trans _ _ _ Hyz Hxy).
Qed.

Lemma compare_rows_respects asc : respects (compare_rows asc) (in_order asc).
Proof.
  intros x y. unfold compare_rows, in_order.
  destruct (Str.lt (sort_key x) (sort_key y)) eqn:Hxy; destruct asc; simpl;
    split; intros Hc; try lia; try done; by apply str_lt_asym.
Qed.

(** ** The keys, field by field *)

(** [A < B] on strings is the lexicographic order on the sequences of
    code units. *)
Lemma str_lt_lexico (a b : list N) : Str.lt a b = true ↔ lexico a b.
Proof.
  revert b. induction a as [|x a IH]; intros [|y b]; simpl; try done.
  change (lexico (x :: a) (y :: b))
    with ((x < y)%N ∨ x = y ∧ lexico a b).
  destruct (x <? y)%N eqn:Hxy.
  - apply N.ltb_lt in Hxy. split; [by left|done].
  - apply N.ltb_ge in Hxy. destruct (y <? x)%N eqn:Hyx.
    + apply N.ltb_lt in Hyx. split; [done|]. intros [?|[? _]]; lia.
    + apply N.ltb_ge in Hyx. rewrite IH. split.
      * intros Hab. right. split; [lia|done].
      * intros [?|[_ ?]]; [lia|done].
Qed.

Lemma is_digit_range (c : N) : Char.is_digit c ↔ (48 ≤ c ≤ 57)%N.
Proof.
  unfold Char.is_digit. rewrite andb_True, !Is_true_true.
  by rewrite !N.leb_le.
Qed.

Lemma dedup_key_fields (r : ParsedRow) :
  dedup_key r
  = match e164 r with Some (c :: s) => c :: s | _ => cleaned r end.
Proof. done. Qed.

Lemma sort_key_fields (r : ParsedRow) :
  sort_key r
  = filter (λ c, (48 ≤ c ≤ 57)%N)
      (match e164 r with Some (c :: s) => c :: s | _ => cleaned r end).
Proof.
  unfold sort_key, digits_only. rewrite dedup_key_fields.
  apply list_filter_iff. intros c. apply is_digit_range.
Qed.

Lemma group_key_fields (r : ParsedRow) :
  group_key r
  = match row_country r with Some (c :: s) => c :: s | _ => js "Unknown" end.
Proof. done. Qed.

Lemma Sorted_weaken {X} (R R' : X → X → Prop) (l : list X) :
  (∀ x y, R x y → R' x y) → Sorted R l → Sorted R' l.
Proof.
  intros HR. induction 1 as [|x l Hl IH Hx]; constructor; [done|].
  destruct Hx; constructor. by apply HR.
Qed.

(** ** Two insertion sorts are engines *)

Section InsertionSorts.
Context {A : Type} (cmp : A → A → Z).

Lemma insert_before_perm x l : insert_before cmp x l ≡ₚ x :: l.
Proof.
  induction l as [|y l IH]; simpl; [done|].
  destruct (cmp x y <? 0)%Z; [done|].
  rewrite IH. apply Permutation_swap.
Qed.

Lemma insert_unless_after_perm x l : insert_unless_after cmp x l ≡ₚ x :: l.
Proof.
  induction l as [|y l IH]; simpl; [done|].
  destruct (0 <? cmp y x)%Z; [done|].
  rewrite IH. apply Permutation_swap.
Qed.

Lemma insertion_sort_perm l : insertion_sort cmp l ≡ₚ l.
Proof.
  unfold insertion_sort. induction l as [|x l IH] using rev_ind; [done|].
  rewrite foldl_snoc, insert_before_perm, IH.
  apply Permutation_cons_append.
Qed.

Lemma insertion_sort'_perm l : insertion_sort' cmp l ≡ₚ l.
Proof.
  unfold insertion_sort'. induction l as [|x l IH] using rev_ind; [done|].
  rewrite foldl_snoc, insert_unless_after_perm, IH.
  apply Permutation_cons_append.
Qed.

Context (R : A → A → Prop) (HR : respects cmp R).

Lemma insert_before_sorted x l :
  Sorted R l → Sorted R (insert_before cmp x l).
Proof.
  induction l as [|y l IH]; simpl; intros Hs.
  - repeat constructor.
  - apply Sorted_inv in Hs as [Hl Hy].
    destruct (HR x y) as [Hle Hge].
    destruct (cmp x y <? 0)%Z eqn:Hc.
    + apply Z.ltb_lt in Hc. repeat constructor; [done|done|].
      apply Hle. lia.
    + apply Z.ltb_ge in Hc.
      assert (R y x) by (apply Hge; lia).
      constructor; [by apply IH|].
      destruct l as [|z l]; simpl; [by constructor|].
      destruct (cmp x z <? 0)%Z; constructor; [done|].
      by apply HdRel_inv in Hy.
Qed.

Lemma insert_unless_after_sorted x l :
  Sorted R l → Sorted R (insert_unless_after cmp x l).
Proof.
  induction l as [|y l IH]; simpl; intros Hs.
  - repeat constructor.
  - apply Sorted_inv in Hs as [Hl Hy].
    destruct (HR y x) as [Hle Hge].
    destruct (0 <? cmp y x)%Z eqn:Hc.
    + apply Z.ltb_lt in Hc. repeat constructor; [done|done|].
      apply Hge. lia.
    + apply Z.ltb_ge in Hc.
      assert (R y x) by (apply Hle; lia).
      constructor; [by apply IH|].
      destruct l as [|z l]; simpl; [by constructor|].
      destruct (0 <? cmp z x)%Z; constructor; [done|].
      by apply HdRel_inv in Hy.
Qed.

Lemma insertion_sort_sorted l : Sorted R (insertion_sort cmp l).
Proof.
  unfold insertion_sort. induction l as [|x l IH] using rev_ind.
  - constructor.
  - rewrite foldl_snoc. by apply insert_before_sorted.
Qed.

Lemma insertion_sort'_sorted l : Sorted R (insertion_sort' cmp l).
Proof.
  unfold insertion_sort'. induction l as [|x l IH] using rev_ind.
  - constructor.
  - rewrite foldl_snoc. by apply insert_unless_after_sorted.
Qed.

End InsertionSorts.

Lemma insertion_engine_lawful : lawful insertion_engine.
Proof.
  split.
  - intros A cmp l. apply insertion_sort_perm.
  - intros A cmp R l _ HR. by apply insertion_sort_sorted.
Qed.

Lemma insertion_engine'_lawful : lawful insertion_engine'.
Proof.
  split.
  - intros A cmp l. apply insertion_sort'_perm.
  - intros A cmp R l _ HR. by apply insertion_sort'_sorted.
Qed.

(** ** The deduplication loop *)

Lemma dedup_loop_state (l : list ParsedRow) :
  foldl dedup_step (∅, []) l
  = (list_to_set (dedup_key <$> l), firsts_by dedup_key l).
Proof.
  induction l as [|r l IH] using rev_ind; [done|].
  rewrite foldl_snoc, IH, firsts_by_snoc, fmap_snoc. unfold dedup_step. simpl.
  destruct (decide (dedup_key r ∈ dedup_key <$> l)) as [Hin|Hin].
  - rewrite decide_True by (by apply elem_of_list_to_set).
    f_equal. apply set_eq. intros k.
    rewrite !elem_of_list_to_set, elem_of_app, list_elem_of_singleton.
    split; [by left|]. by intros [?| ->].
  - rewrite decide_False by (by rewrite elem_of_list_to_set).
    f_equal. apply set_eq. intros k.
    rewrite elem_of_union, elem_of_singleton, !elem_of_list_to_set,
      elem_of_app, list_elem_of_singleton.
    tauto.
Qed.

Lemma dedup_loop_firsts (l : list ParsedRow) :
  dedup_loop l = firsts_by dedup_key l.
Proof. unfold dedup_loop. by rewrite dedup_loop_state. Qed.

(** ** The flat sequence *)

Section PipelineFacts.
Context `{Authority} `{E : SortEngine}.
Hypothesis engine_lawful : lawful E.

Lemma rows_perm rawText cfg : rows rawText cfg ≡ₚ dedup rawText cfg.
Proof. apply engine_lawful. Qed.

Lemma dedup_sublist rawText cfg :
  dedup rawText cfg `sublist_of` filtered rawText cfg.
Proof. unfold dedup. rewrite dedup_loop_firsts. apply firsts_by_sublist. Qed.

Lemma rows_in_filtered rawText cfg r :
  r ∈ rows rawText cfg → r ∈ filtered rawText cfg.
Proof.
  rewrite rows_perm. intros Hr.
  exact (elem_of_sublist _ _ _ Hr (dedup_sublist rawText cfg)).
Qed.

(** C2, amended: write [key r] for the [e164] of a record when that
    field is set and not the empty string, and for its [cleaned]
    otherwise.  No two records of the flat sequence have the same key;
    each record of the flat sequence is the first one with its key
    among the records that reach the deduplication step, in processing
    order; every key that reaches the step is the key of a record of the
    flat sequence; the deduplication step keeps the first occurrences
    in their processing order (its result is a sublist of its input),
    and the flat sequence holds exactly the records of that result,
    rearranged by the sort.  When no record that reaches the step has
    the empty string as [e164], the keys are also pairwise distinct
    with the key read as [e164] if set, else [cleaned]. *)
Theorem rows_deduplicated (rawText : list N) (cfg : Config) :
  let key (r : ParsedRow) : list N :=
    match e164 r with Some (c :: s) => c :: s | _ => cleaned r end in
  let flat := rows rawText cfg in
  let input := filtered rawText cfg in
  NoDup (key <$> flat)
  ∧ Forall (λ r, ∃ pre post,
              input = pre ++ r :: post ∧ Forall (λ x, key x ≠ key r) pre)
           flat
  ∧ (∀ k, k ∈ key <$> flat ↔ k ∈ key <$> input)
  ∧ dedup rawText cfg `sublist_of` input
  ∧ flat ≡ₚ dedup rawText cfg
  ∧ (Forall (λ r, e164 r ≠ Some []) input → NoDup (key_as_claimed <$> flat)).
Proof.
  intros key flat input.
  assert (Hkey : ∀ r, key r = dedup_key r)
    by (intros r; symmetry; apply dedup_key_fields).
  assert (Hkeys : ∀ l, key <$> l = dedup_key <$> l)
    by (intros l; apply list_fmap_ext; intros _ r _; apply Hkey).
  assert (Hnd : NoDup (dedup_key <$> flat)).
  { unfold flat. rewrite rows_perm. unfold dedup. rewrite dedup_loop_firsts.
    apply firsts_by_NoDup. }
  split; [by rewrite Hkeys|].
  split; [|split; [|split; [|split]]].
  - apply Forall_forall. intros r Hr. unfold flat in Hr.
    rewrite rows_perm in Hr. unfold dedup in Hr.
    rewrite dedup_loop_firsts in Hr.
    destruct (firsts_by_first dedup_key _ _ Hr) as (pre & post & Hsplit & Hpre).
    exists pre, post. split; [done|].
    apply Forall_forall. intros x Hx. rewrite (Hkey x), (Hkey r). intros Heq.
    apply Hpre. rewrite <- Heq. by apply list_elem_of_fmap_2.
  - intros k. rewrite !Hkeys. unfold flat. rewrite rows_perm. unfold dedup.
    rewrite dedup_loop_firsts. apply firsts_by_keys.
  - apply dedup_sublist.
  - apply rows_perm.
  - intros Hne.
    replace (key_as_claimed <$> flat) with (dedup_key <$> flat); [done|].
    apply list_fmap_ext. intros i r Hi.
    apply list_elem_of_lookup_2, rows_in_filtered in Hi.
    rewrite Forall_forall in Hne. specialize (Hne r Hi).
    unfold key_as_claimed, dedup_key, js_or.
    by destruct (e164 r) as [[|c s]|].
Qed.

(** C3: with [onlyValid] set, every record of the flat sequence has
    [valid = true] and an [e164] that is set and not empty. *)
Theorem only_valid_rows (rawText dc : list N) (asc : bool) :
  Forall (λ r, valid r = true ∧ ∃ c s, e164 r = Some (c :: s))
         (rows rawText
               {| defaultCountry := dc; onlyValid := true; sortAsc := asc |}).
Proof.
  apply Forall_forall. intros r Hr. apply rows_in_filtered in Hr.
  unfold filtered in Hr. simpl in Hr.
  apply list_elem_of_filter in Hr as [Hk _].
  unfold keep_valid in Hk. apply andb_prop_elim in Hk as [Hv He].
  split; [by apply Is_true_true|].
  destruct (e164 r) as [[|c s]|]; simpl in He; try done. by exists c, s.
Qed.

(** C4: write [digits r] for the digits (code units 48 to 57) of the
    [e164] of a record when that field is set and not the empty string,
    and of its [cleaned] otherwise, in their order.  Any two adjacent
    records of the flat sequence are in the lexicographic order of
    these strings, code unit by code unit and a proper prefix first,
    not the order of the numbers they spell: when [sortAsc] is set the
    later record's string is never below the earlier one's, and when it
    is not set the earlier record's string is never below the later
    one's. *)
Theorem rows_sorted (rawText : list N) (cfg : Config) :
  let digits (r : ParsedRow) : list N :=
    filter (λ c, (48 ≤ c ≤ 57)%N)
      (match e164 r with Some (c :: s) => c :: s | _ => cleaned r end) in
  Sorted (λ x y, if sortAsc cfg then ¬ lexico (digits y) (digits x)
                 else ¬ lexico (digits x) (digits y))
         (rows rawText cfg).
Proof.
  intros digits.
  apply (Sorted_weaken (in_order (sortAsc cfg))).
  - intros x y. unfold in_order, digits. rewrite <- !sort_key_fields.
    destruct (sortAsc cfg); intros Hlt Hlex; apply str_lt_lexico in Hlex;
      congruence.
  - destruct engine_lawful as [_ Hsorted]. apply Hsorted.
    + apply in_order_trans.
    + apply compare_rows_respects.
Qed.

End PipelineFacts.

(** ** The grouped view *)

Section GroupedFacts.

Lemma fmap_ext_elem {X Y} (f g : X → Y) (l : list X) :
  (∀ x, x ∈ l → f x = g x) → f <$> l = g <$> l.
Proof.
  intros Hfg. apply list_fmap_ext. intros i x Hi.
  apply Hfg. by eapply list_elem_of_lookup_2.
Qed.

Lemma obj_has_elem c (m : list (list N * list ParsedRow)) :
  obj_has c m = true ↔ c ∈ m.*1.
Proof.
  induction m as [|[k l] m IH]; simpl.
  - split; [done|by intros ?%elem_of_nil].
  - rewrite elem_of_cons. destruct (decide (k = c)) as [->|Hne].
    + split; [by left|done].
    + rewrite IH. split; [by right|]. by intros [?|?].
Qed.

Lemma obj_push_miss c r (m1 m2 : list (list N * list ParsedRow)) :
  c ∉ m1.*1 → obj_push c r (m1 ++ m2) = m1 ++ obj_push c r m2.
Proof.
  induction m1 as [|[k l] m1 IH]; simpl; [done|].
  intros Hc. apply not_elem_of_cons in Hc as [Hne Hc].
  rewrite decide_False by done. by rewrite IH.
Qed.

Lemma obj_push_absent c r (m : list (list N * list ParsedRow)) :
  c ∉ m.*1 → obj_push c r m = m.
Proof.
  intros Hc. pose proof (obj_push_miss c r m [] Hc) as Hp.
  by rewrite !app_nil_r in Hp.
Qed.

Lemma obj_push_groups c r (f : list N → list ParsedRow) ks :
  NoDup ks →
  obj_push c r ((λ k, (k, f k)) <$> ks)
  = (λ k, (k, if decide (k = c) then f k ++ [r] else f k)) <$> ks.
Proof.
  induction 1 as [|k ks Hk Hks IH]; simpl; [done|].
  destruct (decide (k = c)) as [->|Hne].
  - f_equal. apply fmap_ext_elem. intros k Hin.
    rewrite decide_False; [done|]. by intros ->.
  - f_equal. exact IH.
Qed.

Lemma filter_key_absent (l : list ParsedRow) c :
  c ∉ group_key <$> l → filter (λ r, group_key r = c) l = [].
Proof.
  induction l as [|x l IH]; [done|]. simpl.
  intros Hc. apply not_elem_of_cons in Hc as [Hne Hc].
  rewrite filter_cons, decide_False by done. by apply IH.
Qed.

(** The loop builds, for every key in order of first appearance, the
    records with that key in their order in the flat sequence. *)
Lemma grouped_spec (l : list ParsedRow) :
  grouped l
  = (λ k, (k, filter (λ r, group_key r = k) l))
      <$> firsts_by id (group_key <$> l).
Proof.
  unfold grouped. induction l as [|r l IH] using rev_ind; [done|].
  rewrite foldl_snoc, IH, fmap_snoc, firsts_by_snoc, list_fmap_id.
  unfold grouped_step. change (id (group_key r)) with (group_key r).
  set (c := group_key r).
  set (ks := firsts_by id (group_key <$> l)).
  assert (Hks : NoDup ks) by apply firsts_by_id_NoDup.
  assert (Hfst : ∀ f : list N → list ParsedRow,
             ((λ k, (k, f k)) <$> ks).*1 = ks).
  { intros f. rewrite <- list_fmap_compose.
    rewrite <- (list_fmap_id ks) at 2. by apply fmap_ext_elem. }
  destruct (decide (c ∈ group_key <$> l)) as [Hin|Hin].
  - assert (Hc : c ∈ ks) by (by apply firsts_by_id_elem).
    replace (obj_has c _) with true
      by (symmetry; apply obj_has_elem; by rewrite Hfst).
    rewrite obj_push_groups by done.
    apply fmap_ext_elem. intros k _. f_equal.
    rewrite filter_app, filter_cons, filter_nil. fold c.
    destruct (decide (k = c)) as [->|Hne].
    + by rewrite decide_True.
    + rewrite decide_False by (by intros ?). by rewrite app_nil_r.
  - assert (Hc : c ∉ ks) by (unfold ks; by rewrite firsts_by_id_elem).
    destruct (obj_has c _) eqn:Hhas.
    { apply obj_has_elem in Hhas. by rewrite Hfst in Hhas. }
    rewrite obj_push_miss by (by rewrite Hfst). simpl.
    rewrite decide_True by done.
    rewrite fmap_snoc. f_equal.
    + apply fmap_ext_elem. intros k Hk. f_equal.
      rewrite filter_app, filter_cons, filter_nil. fold c.
      rewrite decide_False by (intros Heq; apply Hc; by rewrite Heq).
      by rewrite app_nil_r.
    + rewrite filter_app, filter_cons, filter_nil. fold c.
      rewrite decide_True by done.
      by rewrite (filter_key_absent l c Hin).
Qed.

Lemma filter_split_key (l : list ParsedRow) k (ks : list (list N)) :
  k ∉ ks →
  filter (λ r, group_key r = k) l ++ filter (λ r, group_key r ∈ ks) l
  ≡ₚ filter (λ r, group_key r ∈ k :: ks) l.
Proof.
  intros Hk. induction l as [|x l IH]; [done|].
  rewrite !filter_cons.
  destruct (decide (group_key x = k)) as [Hx|Hx].
  - rewrite decide_False by (by rewrite Hx).
    rewrite decide_True by (rewrite Hx; apply elem_of_cons; by left).
    simpl. by rewrite IH.
  - destruct (decide (group_key x ∈ ks)) as [Hin|Hin].
    + rewrite decide_True by (apply elem_of_cons; by right).
      rewrite <- Permutation_middle. by rewrite IH.
    + rewrite decide_False by (by intros [?|?]%elem_of_cons). done.
Qed.

Lemma groups_concat (l : list ParsedRow) (ks : list (list N)) :
  NoDup ks →
  concat ((λ k, filter (λ r, group_key r = k) l) <$> ks)
  ≡ₚ filter (λ r, group_key r ∈ ks) l.
Proof.
  induction 1 as [|k ks Hk Hks IH]; simpl.
  - induction l as [|x l IHl]; [done|].
    rewrite filter_cons, decide_False by apply not_elem_of_nil. done.
  - rewrite IH. by apply filter_split_key.
Qed.

Lemma filter_all_keys (l : list ParsedRow) (ks : list (list N)) :
  (∀ r, r ∈ l → group_key r ∈ ks) →
  filter (λ r, group_key r ∈ ks) l = l.
Proof.
  induction l as [|x l IH]; intros Hall; [done|].
  rewrite filter_cons, decide_True by (apply Hall; by left).
  f_equal. apply IH. intros r Hr. apply Hall. by right.
Qed.

Lemma grouped_union (l : list ParsedRow) : concat (grouped l).*2 ≡ₚ l.
Proof.
  rewrite grouped_spec, <- list_fmap_compose.
  etrans; [apply groups_concat, firsts_by_id_NoDup|].
  rewrite filter_all_keys; [done|].
  intros r Hr. apply firsts_by_id_elem. by apply list_elem_of_fmap_2.
Qed.

Lemma grouped_keys (l : list ParsedRow) :
  (grouped l).*1 = firsts_by id (group_key <$> l).
Proof.
  rewrite grouped_spec, <- list_fmap_compose.
  rewrite <- (list_fmap_id (firsts_by id _)) at 2. by apply fmap_ext_elem.
Qed.

End GroupedFacts.

(** C5: write [key r] for the country of a record when that field is
    set (and not the empty string), and for the string [Unknown]
    otherwise.  The grouped view has one entry per key of the flat
    sequence, the keys in the order in which the flat sequence first
    shows them; the entry of a key holds exactly the records of the
    flat sequence with that key, in their order there; no key has two
    entries, and all entries together hold the records of the flat
    sequence, each once. *)
Theorem grouped_view `{Authority} `{SortEngine} (rawText : list N) (cfg : Config) :
  let key (r : ParsedRow) : list N :=
    match row_country r with Some (c :: s) => c :: s | _ => js "Unknown" end in
  let flat := rows rawText cfg in
  grouped flat
  = (λ k, (k, filter (λ r, key r = k) flat)) <$> firsts_by id (key <$> flat)
  ∧ NoDup (grouped flat).*1
  ∧ concat (grouped flat).*2 ≡ₚ flat.
Proof.
  intros key flat. split; [|split; [|apply grouped_union]].
  - rewrite grouped_spec.
    replace (key <$> flat) with (group_key <$> flat)
      by (apply list_fmap_ext; intros _ r _; apply group_key_fields).
    apply list_fmap_ext. intros _ k _. by f_equal.
  - rewrite grouped_keys. apply firsts_by_id_NoDup.
Qed.

(** ** The memo cells never serve a stale value *)

Section ComponentFacts.
Context `{Authority} `{SortEngine}.

Lemma coherent_init : coherent hooks_init.
Proof. split; simpl; intros; discriminate. Qed.

Lemma coherent_discard h : coherent (Hooks (next_ref h) None None).
Proof. split; simpl; intros; discriminate. Qed.

Lemma use_rows_spec rawText cfg h :
  coherent h →
  (use_rows rawText cfg h).1.2 = rows rawText cfg
  ∧ coherent (use_rows rawText cfg h).2
  ∧ rows_memo (use_rows rawText cfg h).2
    = Some ((rawText, cfg), (use_rows rawText cfg h).1).
Proof.
  intros Hh. pose proof Hh as [Hr Hg]. unfold use_rows.
  assert (Hnew : (compute_rows rawText cfg h).1.2 = rows rawText cfg
                 ∧ coherent (compute_rows rawText cfg h).2
                 ∧ rows_memo (compute_rows rawText cfg h).2
                   = Some ((rawText, cfg), (compute_rows rawText cfg h).1)).
  { split; [done|]. split; [|done]. split; simpl.
    - intros deps a l [= <- <- <-]. split; [done|lia].
    - intros a g Hm. destruct (Hg a g Hm) as [Hlt _]. split; [lia|].
      intros deps l [= _ Ha _]. lia. }
  destruct (rows_memo h) as [[deps [a l]]|] eqn:Hm; [|exact Hnew].
  destruct (decide (deps = (rawText, cfg))) as [->|Hne]; [|exact Hnew].
  simpl. destruct (Hr _ _ _ eq_refl) as [-> _]. done.
Qed.

Lemma use_grouped_spec r h :
  coherent h →
  (∃ deps, rows_memo h = Some (deps, r)) →
  (use_grouped r h).1 = grouped r.2 ∧ coherent (use_grouped r h).2.
Proof.
  intros Hh [deps Hm]. pose proof Hh as [Hr Hg].
  destruct r as [a l]. unfold use_grouped.
  assert (Hnew : (compute_grouped (a, l) h).1 = grouped l
                 ∧ coherent (compute_grouped (a, l) h).2).
  { split; [done|]. split; simpl; [exact Hr|].
    intros a' g [= <- <-]. split; [by destruct (Hr _ _ _ Hm)|].
    intros deps' l' Hm'. rewrite Hm in Hm'. by injection Hm' as _ ->. }
  destruct (grouped_memo h) as [[dep g]|] eqn:Hgm; [|exact Hnew].
  destruct (decide (dep = (a, l).1)) as [->|Hne]; [|exact Hnew].
  simpl. split; [|done]. destruct (Hg _ _ eq_refl) as [_ Hgl]. by eapply Hgl.
Qed.

(** A render returns the flat sequence and the grouped view of its
    inputs, whatever the cells held. *)
Lemma render_spec rawText cfg h :
  coherent h →
  (render rawText cfg h).1 = (rows rawText cfg, grouped (rows rawText cfg))
  ∧ coherent (render rawText cfg h).2.
Proof.
  intros Hh. unfold render.
  destruct (use_rows_spec rawText cfg h Hh) as (Hv & Hh1 & Hm1).
  destruct (use_rows rawText cfg h) as [r h1]. simpl in *.
  destruct (use_grouped_spec r h1 Hh1) as [Hg Hh2]; [by eexists|].
  destruct (use_grouped r h1) as [g h2]. simpl in *.
  by rewrite Hv, Hg, Hv.
Qed.

Lemma step_coherent h e : coherent h → coherent (step h e).
Proof.
  intros Hh. destruct e as [rawText cfg|]; simpl.
  - by apply render_spec.
  - apply coherent_discard.
Qed.

Lemma run_coherent es h : coherent h → coherent (run es h).
Proof.
  unfold run. revert h. induction es as [|e es IH]; intros h Hh; [done|].
  simpl. by apply IH, step_coherent.
Qed.

(** C1: a mounted component that renders with a raw text and a
    configuration shows the same flat sequence and the same grouped
    view every time it does so, whatever it rendered before and in
    between and whether or not React kept its cached values: both are
    the pipeline's result for these inputs. *)
Theorem pipeline_deterministic
    (before between : list event) (rawText : list N) (cfg : Config) :
  let first := render rawText cfg (run before hooks_init) in
  let second := render rawText cfg (run between first.2) in
  first.1 = second.1
  ∧ first.1 = (rows rawText cfg, grouped (rows rawText cfg)).
Proof.
  intros first second.
  assert (H1 : coherent (run before hooks_init))
    by apply run_coherent, coherent_init.
  destruct (render_spec rawText cfg _ H1) as [Hv1 Hc1].
  assert (H2 : coherent (run between first.2)) by by apply run_coherent.
  destruct (render_spec rawText cfg _ H2) as [Hv2 _].
  unfold first, second. by rewrite Hv1, Hv2.
Qed.

End ComponentFacts.

(** ** Scenarios, evaluated with the small numbering plan *)

Example tokenize_scenario_A :
  tokenize (js "+977 9812345678, 9812345678")
  = [js "+977 9812345678"; js "9812345678"].
Proof. by vm_compute. Qed.

Example tokenize_scenario_C :
  tokenize (js "Call me at 014-555-0134 tomorrow")
  = [js "Call me at 014-555-0134 tomorrow"; js "014-555-0134"].
Proof. by vm_compute. Qed.

(** Delimiter runs, two or more white-space characters, and a single
    space that does not split. *)
Example candidates_delimiters :
  candidates (js "a,;b   c d" ++ [10%N; 9%N] ++ js " e" ++ [Char.nbsp; Char.nbsp] ++ js "f")
  = [js "a"; js "b"; js "c d"; js "e"; js "f"].
Proof. by vm_compute. Qed.

(** An embedded match can run across a line break. *)
Example tokenize_across_lines :
  tokenize (js "12" ++ [10%N] ++ js "34567")
  = [js "12"; js "34567"; js "12" ++ [10%N] ++ js "34567"].
Proof. by vm_compute. Qed.

Example scenario_A :
  e164 <$> @rows plan_authority insertion_engine
             (js "+977 9812345678, 9812345678") (config "NP" true true)
  = [Some (js "+9779812345678")].
Proof. by vm_compute. Qed.

Example scenario_B :
  @rows plan_authority insertion_engine (js "abc 123") (config "US" true true)
  = [].
Proof. by vm_compute. Qed.

Example scenario_C :
  cleaned <$> @rows plan_authority insertion_engine
                (js "Call me at 014-555-0134 tomorrow") (config "US" true true)
  = [js "0145550134"].
Proof. by vm_compute. Qed.

Example scenario_D :
  e164 <$> @rows plan_authority insertion_engine
             (js "+14155550123" ++ [10%N] ++ js "+442071838750")
             (config "US" true false)
  = [Some (js "+442071838750"); Some (js "+14155550123")].
Proof. by vm_compute. Qed.

(** String order is not numeric order. *)
Example ten_before_nine : Str.lt (js "10") (js "9") = true.
Proof. reflexivity. Qed.

(** ** Validation of one token *)

Section ValidationFacts.
Context `{Authority} `{SortEngine}.

Lemma try_catch_normal body l : (try_catch body l).1 = Normal ().
Proof. reflexivity. Qed.

(** C9: when the authority returns nothing for the cleaned token, or
    throws, the [try] statement still completes normally and the
    token's record is the invalid one without canonical fields; the
    [map] over the tokens yields one record per token, in token order,
    whatever the authority did with each. *)
Theorem unparseable_token_invalid
    (dc tok rawText : list N) (cfg : Config) :
  parsePhoneNumberFromString (cleanToken tok) dc = Normal None
  ∨ parsePhoneNumberFromString (cleanToken tok) dc = Throw →
  (try_catch (validate_body (cleanToken tok) dc) locals_init).1 = Normal ()
  ∧ parse_token dc tok = invalid_row tok
  ∧ raw <$> parsed rawText cfg = tokenize rawText.
Proof.
  intros Hp. split; [apply try_catch_normal|]. split.
  - unfold parse_token, try_catch, validate_body, invalid_row.
    unfold mbind, Try_bind, call. simpl.
    by destruct Hp as [-> | ->].
  - unfold parsed. rewrite <- list_fmap_compose.
    rewrite <- (list_fmap_id (tokenize rawText)) at 2.
    by apply list_fmap_ext.
Qed.

(** C7, as the code has it: when the authority's calls return, [valid]
    is the region-specific check or the general check; the canonical
    fields follow the general check alone: if it holds, [e164],
    [international] and [national] are set and [country] is the
    country the authority resolved, if it resolved one; if it does not
    hold, none of the four is set, also when the region-specific check
    made the record valid. *)
Theorem validation_fields
    (dc tok : list N) (phone : PhoneNumber) (r g : bool) (i n : list N) :
  parsePhoneNumberFromString (cleanToken tok) dc = Normal (Some phone) →
  isValidNumberForRegion (number phone) dc = Normal r →
  isValid phone = Normal g →
  formatInternational phone = Normal i →
  formatNational phone = Normal n →
  let row := parse_token dc tok in
  valid row = r || g
  ∧ (if g
     then e164 row = Some (number phone)
          ∧ international row = Some i
          ∧ national row = Some n
          ∧ row_country row = cc_str <$> country phone
     else e164 row = None
          ∧ international row = None
          ∧ national row = None
          ∧ row_country row = None).
Proof.
  intros Hp Hr Hg Hi Hn row. unfold row, parse_token, try_catch, validate_body.
  unfold mbind, Try_bind, mret, Try_ret, call. simpl.
  rewrite Hp, Hr. simpl.
  destruct r, g; simpl; rewrite ?Hg; simpl; rewrite ?Hg, ?Hi, ?Hn; simpl; done.
Qed.

End ValidationFacts.

(** A throw after parsing is swallowed as well: with a default region
    outside the plan the region check throws before [valid] is assigned,
    and a well-formed international number comes out invalid. *)
Example region_check_throws :
  @parse_token plan_authority (js "XX") (js "+9779812345678")
  = invalid_row (js "+9779812345678").
Proof. by vm_compute. Qed.

Lemma unparseable_token_invalid_witness :
  (@parsePhoneNumberFromString plan_authority (cleanToken (js "abc")) (js "NP")
   = Normal None
   ∨ @parsePhoneNumberFromString plan_authority (cleanToken (js "abc")) (js "NP")
     = Throw)
  ∧ (try_catch (@validate_body plan_authority (cleanToken (js "abc")) (js "NP"))
               locals_init).1 = Normal ()
  ∧ @parse_token plan_authority (js "NP") (js "abc") = invalid_row (js "abc")
  ∧ raw <$> @parsed plan_authority (js "abc, 9812345678") (config "NP" false true)
    = tokenize (js "abc, 9812345678").
Proof.
  assert (Hp : @parsePhoneNumberFromString plan_authority
                 (cleanToken (js "abc")) (js "NP") = Normal None
               ∨ @parsePhoneNumberFromString plan_authority
                   (cleanToken (js "abc")) (js "NP") = Throw)
    by (left; reflexivity).
  split; [exact Hp|].
  exact (@unparseable_token_invalid plan_authority
           (js "NP") (js "abc") (js "abc, 9812345678")
           (config "NP" false true) Hp).
Defined.

Lemma validation_fields_witness :
  let phone := plan_phone (js "977") (Some np) 10 (js "9812345678") in
  let dc := js "NP" in
  let tok := js "+977 9812345678" in
  (@parsePhoneNumberFromString plan_authority (cleanToken tok) dc
   = Normal (Some phone)
   ∧ @isValidNumberForRegion plan_authority (number phone) dc = Normal true
   ∧ isValid phone = Normal true
   ∧ formatInternational phone = Normal (js "+977 9812345678")
   ∧ formatNational phone = Normal (js "9812345678"))
  ∧ (let row := @parse_token plan_authority dc tok in
     valid row = true || true
     ∧ e164 row = Some (js "+9779812345678")
     ∧ international row = Some (js "+977 9812345678")
     ∧ national row = Some (js "9812345678")
     ∧ row_country row = Some (js "NP")).
Proof.
  intros phone dc tok.
  assert (Hp : @parsePhoneNumberFromString plan_authority (cleanToken tok) dc
               = Normal (Some phone)) by reflexivity.
  assert (Hr : @isValidNumberForRegion plan_authority (number phone) dc
               = Normal true) by reflexivity.
  assert (Hg : isValid phone = Normal true) by reflexivity.
  assert (Hi : formatInternational phone = Normal (js "+977 9812345678"))
    by reflexivity.
  assert (Hn : formatNational phone = Normal (js "9812345678")) by reflexivity.
  split; [by repeat split|].
  exact (@validation_fields plan_authority dc tok phone true true _ _
           Hp Hr Hg Hi Hn).
Defined.

(** C7 as stated fails: a record can be valid without canonical
    fields (the region-specific check holds, the general one does not),
    and a valid record with its three number formats can lack a country
    (a non-geographic number). *)
Lemma valid_without_canonical_fields :
  (let row := @parse_token region_only_authority (js "NP") (js "9812345678") in
   valid row = true
   ∧ e164 row = None ∧ international row = None
   ∧ national row = None ∧ row_country row = None)
  ∧ (let row := @parse_token plan_authority (js "NP") (js "+800 1234 5678") in
     valid row = true
     ∧ e164 row = Some (js "+80012345678")
     ∧ row_country row = None).
Proof. by vm_compute. Qed.

(** ** The comparator on equal keys *)

(** C10: the comparator answers -1 or 1 and never 0; it gives the same
    answer for [(a, b)] and [(b, a)] exactly when the two digit-only
    keys are equal; such pairs reach the sort when [onlyValid] is off
    (a key with [+] and the same digits without it are different
    deduplication keys), and for them the order of the result is the
    engine's choice: two engines that both honour every answer of the
    comparator return the two records in opposite orders. *)
Theorem comparator_never_zero :
  (∀ asc a b, compare_rows asc a b = (-1)%Z ∨ compare_rows asc a b = 1%Z)
  ∧ (∀ asc a b,
       compare_rows asc a b = compare_rows asc b a ↔ sort_key a = sort_key b)
  ∧ lawful insertion_engine
  ∧ lawful insertion_engine'
  ∧ Forall
      (λ rawText, ∃ a b,
         @dedup plan_authority rawText (config "NP" false true) = [a; b]
         ∧ dedup_key a ≠ dedup_key b
         ∧ sort_key a = sort_key b
         ∧ @rows plan_authority insertion_engine
             rawText (config "NP" false true) = [a; b]
         ∧ @rows plan_authority insertion_engine'
             rawText (config "NP" false true) = [b; a])
      tie_inputs.
Proof.
  split; [exact compare_rows_values|].
  split; [exact compare_rows_symmetric_iff|].
  split; [exact insertion_engine_lawful|].
  split; [exact insertion_engine'_lawful|].
  repeat apply Forall_cons_2; [| |apply Forall_nil_2].
  - eexists _, _. split; [by vm_compute|].
    split; [by vm_compute|]. by vm_compute.
  - eexists _, _. split; [by vm_compute|].
    split; [by vm_compute|]. by vm_compute.
Qed.

(** ** The flat sequence of a concrete run *)

Lemma rows_deduplicated_witness :
  let rawText := js "+977 9812345678, 9812345678, 12, 12" in
  let cfg := config "NP" false true in
  let key (r : ParsedRow) : list N :=
    match e164 r with Some (c :: s) => c :: s | _ => cleaned r end in
  let flat := @rows plan_authority insertion_engine rawText cfg in
  let input := @filtered plan_authority rawText cfg in
  (lawful insertion_engine
   ∧ raw <$> input = [js "+977 9812345678"; js "9812345678"; js "12"]
   ∧ key <$> input = [js "+9779812345678"; js "+9779812345678"; js "12"]
   ∧ raw <$> flat = [js "12"; js "+977 9812345678"]
   ∧ Forall (λ r, e164 r ≠ Some []) input)
  ∧ (NoDup (key <$> flat)
     ∧ Forall (λ r, ∃ pre post,
                 input = pre ++ r :: post ∧ Forall (λ x, key x ≠ key r) pre)
              flat
     ∧ (∀ k, k ∈ key <$> flat ↔ k ∈ key <$> input)
     ∧ @dedup plan_authority rawText cfg `sublist_of` input
     ∧ flat ≡ₚ @dedup plan_authority rawText cfg
     ∧ (Forall (λ r, e164 r ≠ Some []) input
        → NoDup (key_as_claimed <$> flat))).
Proof.
  intros rawText cfg key flat input.
  split.
  - split; [exact insertion_engine_lawful|].
    split; [by vm_compute|]. split; [by vm_compute|].
    split; [by vm_compute|].
    apply (bool_decide_unpack _). by vm_compute.
  - exact (@rows_deduplicated plan_authority insertion_engine
             insertion_engine_lawful rawText cfg).
Defined.

(** C2 as stated, for the order.  The two numbers below are valid and
    have different keys, so both reach the flat sequence; the
    deduplication step keeps them in the order of the text, and the
    ascending sort that follows puts the second one first, whatever
    the engine: the flat sequence does not keep the first occurrences
    in their processing order. *)
Lemma sort_reorders_first_occurrences :
  let rawText := js "+442071838750, +14155550123" in
  let cfg := config "GB" true true in
  let gb_row := @parse_token plan_authority (js "GB") (js "+442071838750") in
  let us_row := @parse_token plan_authority (js "GB") (js "+14155550123") in
  e164 gb_row = Some (js "+442071838750")
  ∧ e164 us_row = Some (js "+14155550123")
  ∧ @filtered plan_authority rawText cfg = [gb_row; us_row]
  ∧ @dedup plan_authority rawText cfg = [gb_row; us_row]
  ∧ @rows plan_authority insertion_engine rawText cfg = [us_row; gb_row]
  ∧ (∀ E : SortEngine, lawful E →
       @rows plan_authority E rawText cfg = [us_row; gb_row])
  ∧ ¬ [us_row; gb_row] `sublist_of` [gb_row; us_row].
Proof.
  intros rawText cfg gb_row us_row.
  assert (Hd : @dedup plan_authority rawText cfg = [gb_row; us_row])
    by (by vm_compute).
  split; [by vm_compute|]. split; [by vm_compute|].
  split; [by vm_compute|]. split; [exact Hd|].
  split; [by vm_compute|]. split.
  - intros E HE.
    pose proof (@rows_perm plan_authority E HE rawText cfg) as Hp.
    assert (Hs : Sorted (in_order true) (@rows plan_authority E rawText cfg)).
    { destruct HE as [_ Hsorted]. apply Hsorted.
      - apply in_order_trans.
      - apply compare_rows_respects. }
    rewrite Hd in Hp. symmetry in Hp.
    apply Permutation_length_2_inv in Hp as [Hp|Hp]; [|exact Hp].
    rewrite Hp in Hs. apply Sorted_inv in Hs as [_ Hhd].
    apply HdRel_inv in Hhd. by vm_compute in Hhd.
  - intros Hsub. apply sublist_cons_l in Hsub as (k1 & k2 & Heq & Hsub).
    destruct k1 as [|a [|b k1]]; simpl in Heq.
    + by vm_compute in Heq.
    + injection Heq as _ <-. by apply sublist_nil_r in Hsub.
    + injection Heq as _ Heq. by destruct k1.
Qed.

Lemma only_valid_rows_witness :
  lawful insertion_engine
  ∧ Forall (λ r, valid r = true ∧ ∃ c s, e164 r = Some (c :: s))
           (@rows plan_authority insertion_engine
              (js "+977 9812345678, 12, +80012345678")
              {| defaultCountry := js "NP"; onlyValid := true;
                 sortAsc := false |}).
Proof.
  split; [exact insertion_engine_lawful|].
  exact (@only_valid_rows plan_authority insertion_engine
           insertion_engine_lawful
           (js "+977 9812345678, 12, +80012345678") (js "NP") false).
Defined.

Lemma rows_sorted_witness :
  let digits (r : ParsedRow) : list N :=
    filter (λ c, (48 ≤ c ≤ 57)%N)
      (match e164 r with Some (c :: s) => c :: s | _ => cleaned r end) in
  let flat := @rows plan_authority insertion_engine
                (js "+14155550123, +442071838750, 10, 9")
                (config "US" false false) in
  (lawful insertion_engine
   ∧ digits <$> flat
     = [js "9"; js "442071838750"; js "14155550123"; js "10"])
  ∧ Sorted (λ x y, ¬ lexico (digits x) (digits y)) flat.
Proof.
  intros digits flat.
  split; [split; [exact insertion_engine_lawful|by vm_compute]|].
  exact (@rows_sorted plan_authority insertion_engine
           insertion_engine_lawful
           (js "+14155550123, +442071838750, 10, 9")
           (config "US" false false)).
Defined.

Example grouped_by_country :
  let flat := @rows plan_authority insertion_engine
                (js "+14155550123, +442071838750, 10, 9")
                (config "US" false false) in
  (λ g : list N * list ParsedRow, (g.1, raw <$> g.2)) <$> grouped flat
  = [ (js "Unknown", [js "9"; js "10"]);
      (js "GB", [js "+442071838750"]);
      (js "US", [js "+14155550123"]) ].
Proof. by vm_compute. Qed.

Example rows_sorted_descending :
  sort_key <$> @rows plan_authority insertion_engine
                 (js "+14155550123, +442071838750, 10, 9")
                 (config "US" false false)
  = [js "9"; js "442071838750"; js "14155550123"; js "10"].
Proof. by vm_compute. Qed.

(** * Further properties of the page *)

(** ** Records *)

Lemma parse_token_chain `{Authority} (dc tok : list N) :
  let r := parse_token dc tok in
  (is_Some (row_country r) → is_Some (national r))
  ∧ (is_Some (national r) → is_Some (international r))
  ∧ (is_Some (international r) → is_Some (e164 r))
  ∧ (is_Some (e164 r) → valid r = true)
  ∧ raw r = tok ∧ cleaned r = cleanToken tok.
Proof.
  intros r. unfold r, parse_token, try_catch, validate_body.
  unfold mbind, Try_bind, mret, Try_ret, call. simpl.
  destruct (parsePhoneNumberFromString (cleanToken tok) dc) as [[phone|]|];
    simpl; try by (repeat split; intros [? ?]).
  destruct (isValidNumberForRegion (number phone) dc) as [[|]|]; simpl;
    try by (repeat split; intros [? ?]).
  - destruct (isValid phone) as [[|]|]; simpl;
      try by (repeat split; intros [? ?]).
    destruct (formatInternational phone) as [i|]; simpl;
      try by (repeat split; (done || intros [? ?] || eauto)).
    destruct (formatNational phone) as [n|]; simpl;
      try by (repeat split; (done || intros [? ?] || eauto)).
  - destruct (isValid phone) as [[|]|] eqn:Hg; simpl; rewrite ?Hg; simpl;
      try by (repeat split; intros [? ?]).
    destruct (formatInternational phone) as [i|]; simpl;
      try by (repeat split; (done || intros [? ?] || eauto)).
    destruct (formatNational phone) as [n|]; simpl;
      try by (repeat split; (done || intros [? ?] || eauto)).
Qed.

(** X1: whatever the authority does with a token, returning or
    throwing at any call, the record's fields are filled in the order
    of the assignments: a country only with a national format, a
    national format only with an international one, that only with an
    [e164], and an [e164] only in a valid record.  So an invalid record
    has no canonical field, and [raw] and [cleaned] are always the token
    and its cleaned form. *)
Theorem parse_token_fields `{Authority} (dc tok : list N) :
  let r := parse_token dc tok in
  (is_Some (row_country r) → is_Some (national r))
  ∧ (is_Some (national r) → is_Some (international r))
  ∧ (is_Some (international r) → is_Some (e164 r))
  ∧ (is_Some (e164 r) → valid r = true)
  ∧ (valid r = false →
     e164 r = None ∧ international r = None
     ∧ national r = None ∧ row_country r = None)
  ∧ raw r = tok ∧ cleaned r = cleanToken tok.
Proof.
  intros r. destruct (parse_token_chain dc tok) as (Hc & Hn & Hi & He & Hr & Hcl).
  fold r in Hc, Hn, Hi, He, Hr, Hcl.
  split; [done|]. split; [done|]. split; [done|]. split; [done|].
  split; [|done].
  intros Hv.
  assert (He' : e164 r = None).
  { destruct (e164 r) eqn:Heq; [|done]. rewrite He in Hv by eauto. done. }
  assert (Hi' : international r = None).
  { destruct (international r) eqn:Heq; [|done].
    destruct Hi as [? Hi]; [eauto|]. congruence. }
  assert (Hn' : national r = None).
  { destruct (national r) eqn:Heq; [|done].
    destruct Hn as [? Hn]; [eauto|]. congruence. }
  assert (Hc' : row_country r = None).
  { destruct (row_country r) eqn:Heq; [|done].
    destruct Hc as [? Hc]; [eauto|]. congruence. }
  done.
Qed.

(** ** The cleaner, again *)

Lemma cleanToken_digits (token : list N) :
  cleanToken token
  = (if Str.includes_plus token
     then Char.plus
            :: Str.drop_while Char.is_zero (filter (λ c, Char.is_digit c) token)
     else filter (λ c, Char.is_digit c) token).
Proof.
  unfold cleanToken. rewrite filter_digits_of_kept, includes_plus_kept.
  destruct (Str.includes_plus token) eqn:Hp; [done|].
  by apply kept_without_plus.
Qed.

Lemma filter_digits_id (ds : list N) :
  Forall (λ c, Char.is_digit c = true) ds →
  filter (λ c, Char.is_digit c) ds = ds.
Proof.
  induction 1 as [|c ds Hc Hds IH]; [done|].
  rewrite filter_cons, decide_True by (by apply Is_true_true).
  by rewrite IH.
Qed.

Lemma digits_no_plus (ds : list N) :
  Forall (λ c, Char.is_digit c = true) ds → Str.includes_plus ds = false.
Proof.
  unfold Str.includes_plus. induction 1 as [|c ds Hc Hds IH]; [done|].
  simpl. by rewrite (digit_not_plus c Hc), IH.
Qed.

Lemma drop_while_idem p (l : list N) :
  Str.drop_while p (Str.drop_while p l) = Str.drop_while p l.
Proof.
  induction l as [|c l IH]; [done|]. simpl.
  destruct (p c) eqn:Hc; [done|]. simpl. by rewrite Hc.
Qed.

(** X2: cleaning is idempotent: a cleaned token is unchanged by
    cleaning it again. *)
Theorem cleanToken_idempotent (token : list N) :
  cleanToken (cleanToken token) = cleanToken token.
Proof.
  rewrite (cleanToken_digits token).
  pose proof (filter_digits_Forall token) as Hds.
  destruct (Str.includes_plus token).
  - rewrite cleanToken_digits. simpl.
    rewrite filter_cons, decide_False by (by intros ?).
    rewrite filter_digits_id by (by apply drop_while_Forall).
    by rewrite drop_while_idem.
  - rewrite cleanToken_digits, (digits_no_plus _ Hds).
    by apply filter_digits_id.
Qed.

(** ** The selection *)

Lemma filter_ne_absent (l : list (list N)) x :
  x ∉ l → filter (λ y, y ≠ x) l = l.
Proof.
  induction l as [|y l IH]; [done|].
  intros [Hne Hl]%not_elem_of_cons.
  rewrite filter_cons, decide_True by (by intros ->). by rewrite IH.
Qed.

Lemma array_from_set_NoDup_id (l : list (list N)) :
  NoDup l → array_from_set l = l.
Proof.
  rewrite array_from_set_firsts.
  induction 1 as [|x l Hx Hl IH]; [done|]. simpl.
  by rewrite IH, filter_ne_absent.
Qed.

Lemma array_from_set_elem (l : list (list N)) x :
  x ∈ array_from_set l ↔ x ∈ l.
Proof. rewrite array_from_set_firsts. apply firsts_by_id_elem. Qed.

Lemma array_from_set_NoDup (l : list (list N)) : NoDup (array_from_set l).
Proof. rewrite array_from_set_firsts. apply firsts_by_id_NoDup. Qed.

Lemma toggleSelect_elem (prev : list (list N)) (num x : list N) :
  x ∈ toggleSelect prev num
  ↔ if decide (x = num) then num ∉ prev else x ∈ prev.
Proof.
  unfold toggleSelect, set_delete, set_add.
  destruct (decide (num ∈ array_from_set prev)) as [Hin|Hin];
    rewrite array_from_set_elem in Hin.
  - rewrite list_elem_of_filter, array_from_set_elem.
    destruct (decide (x = num)) as [->|Hne]; tauto.
  - rewrite elem_of_app, list_elem_of_singleton, array_from_set_elem.
    destruct (decide (x = num)) as [->|Hne]; tauto.
Qed.

(** X3: [toggleSelect] flips the membership of the number it is given
    and of no other, and its result never holds a number twice. *)
Theorem toggleSelect_flips (prev : list (list N)) (num x : list N) :
  (x ∈ toggleSelect prev num
   ↔ if decide (x = num) then num ∉ prev else x ∈ prev)
  ∧ NoDup (toggleSelect prev num).
Proof.
  split; [apply toggleSelect_elem|].
  unfold toggleSelect, set_delete, set_add.
  pose proof (array_from_set_NoDup prev) as Hnd.
  destruct (decide (num ∈ array_from_set prev)) as [Hin|Hin].
  - by apply NoDup_filter.
  - apply NoDup_app. split; [done|]. split; [|apply NoDup_singleton].
    intros y Hy ->%list_elem_of_singleton. done.
Qed.

(** X4: toggling the same number twice gives back the selection when
    the number was not selected; when it was, the number has moved to
    the end of the selection, which is the order [Copy Selected] writes
    the numbers in. *)
Theorem toggleSelect_twice (prev : list (list N)) (num : list N) :
  NoDup prev →
  toggleSelect (toggleSelect prev num) num
  = if decide (num ∈ prev) then set_delete prev num ++ [num] else prev.
Proof.
  intros Hnd.
  assert (Hstep : ∀ s, NoDup s →
            toggleSelect s num
            = if decide (num ∈ s) then set_delete s num else s ++ [num]).
  { intros s Hs. unfold toggleSelect, set_add.
    rewrite (array_from_set_NoDup_id s Hs).
    by destruct (decide (num ∈ s)). }
  rewrite (Hstep prev Hnd).
  destruct (decide (num ∈ prev)) as [Hin|Hin].
  - rewrite Hstep by (by apply NoDup_filter). unfold set_delete.
    rewrite decide_False; [done|]. by intros [? _]%list_elem_of_filter.
  - rewrite Hstep.
    + rewrite decide_True by (apply elem_of_app; right; by left).
      unfold set_delete. rewrite filter_app, filter_cons, filter_nil.
      rewrite decide_False by (by intros ?).
      by rewrite app_nil_r, filter_ne_absent.
    + apply NoDup_app. split; [done|]. split; [|apply NoDup_singleton].
      intros y Hy ->%list_elem_of_singleton. done.
Qed.

Lemma toggleSelect_twice_witness :
  NoDup [js "+1"; js "+2"; js "+3"]
  ∧ toggleSelect (toggleSelect [js "+1"; js "+2"; js "+3"] (js "+2")) (js "+2")
    = [js "+1"; js "+3"; js "+2"].
Proof.
  assert (Hnd : NoDup [js "+1"; js "+2"; js "+3"])
    by (apply (bool_decide_unpack _); by vm_compute).
  split; [exact Hnd|].
  exact (toggleSelect_twice [js "+1"; js "+2"; js "+3"] (js "+2") Hnd).
Defined.

Lemma checked_toggle (selected : list (list N)) (r r' : ParsedRow) :
  checked (toggleSelect selected (select_key r)) r'
  = if decide (select_key r' = select_key r)
    then negb (checked selected r') else checked selected r'.
Proof.
  unfold checked.
  pose proof (toggleSelect_elem selected (select_key r) (select_key r'))
    as Hflip.
  destruct (decide (select_key r' = select_key r)) as [Heq|Hne].
  - rewrite Heq in *.
    destruct (decide (select_key r ∈ selected)) as [Hin|Hin].
    + rewrite (bool_decide_eq_true_2 _ Hin). simpl.
      apply bool_decide_eq_false_2. tauto.
    + rewrite (bool_decide_eq_false_2 _ Hin). simpl.
      apply bool_decide_eq_true_2. tauto.
  - by apply bool_decide_ext.
Qed.

(** X5: rows without an [e164] all read and toggle the empty key:
    ticking the checkbox of one of them flips the checkbox of every
    other such row as well. *)
Theorem rows_without_e164_share_checkbox
    (selected : list (list N)) (r r' : ParsedRow) :
  truthy_opt (e164 r) = false → truthy_opt (e164 r') = false →
  checked (toggleSelect selected (select_key r)) r'
  = negb (checked selected r').
Proof.
  intros Hr Hr'. rewrite checked_toggle.
  assert (Hk : ∀ x, truthy_opt (e164 x) = false → select_key x = []).
  { intros x Hx. unfold select_key. by destruct (e164 x) as [[|? ?]|]. }
  by rewrite (Hk r Hr), (Hk r' Hr'), decide_True.
Qed.

Lemma rows_without_e164_share_checkbox_witness :
  let r := @parse_token plan_authority (js "NP") (js "12") in
  let r' := @parse_token plan_authority (js "NP") (js "34") in
  truthy_opt (e164 r) = false ∧ truthy_opt (e164 r') = false
  ∧ checked (toggleSelect [] (select_key r)) r' = negb (checked [] r').
Proof.
  intros r r'.
  assert (Hr : truthy_opt (e164 r) = false) by reflexivity.
  assert (Hr' : truthy_opt (e164 r') = false) by reflexivity.
  split; [exact Hr|]. split; [exact Hr'|].
  exact (rows_without_e164_share_checkbox [] r r' Hr Hr').
Defined.

Lemma NoDup_fmap_inj_on {X Y} (f : X → Y) (l : list X) x y :
  NoDup (f <$> l) → x ∈ l → y ∈ l → f x = f y → x = y.
Proof.
  induction l as [|a l IH]; [by intros _ ?%elem_of_nil|].
  rewrite fmap_cons, NoDup_cons. intros [Ha Hl] Hx Hy Hxy.
  apply elem_of_cons in Hx as [->|Hx]; apply elem_of_cons in Hy as [->|Hy].
  - done.
  - exfalso. apply Ha. rewrite Hxy. by apply list_elem_of_fmap_2.
  - exfalso. apply Ha. rewrite <- Hxy. by apply list_elem_of_fmap_2.
  - by apply IH.
Qed.

Section SelectionFacts.
Context `{Authority} `{E : SortEngine}.
Hypothesis engine_lawful : lawful E.

Lemma rows_keys_NoDup rawText cfg : NoDup (dedup_key <$> rows rawText cfg).
Proof.
  rewrite (rows_perm engine_lawful). unfold dedup.
  rewrite dedup_loop_firsts. apply firsts_by_NoDup.
Qed.

(** X6: with [onlyValid] set, ticking the checkbox of a row of the
    list flips that row's checkbox and leaves the checkbox of every
    other row of the list as it was. *)
Theorem checkbox_per_row
    (rawText dc : list N) (asc : bool) (selected : list (list N))
    (r r' : ParsedRow) :
  let flat := rows rawText
                {| defaultCountry := dc; onlyValid := true; sortAsc := asc |} in
  r ∈ flat → r' ∈ flat → r ≠ r' →
  checked (toggleSelect selected (select_key r)) r = negb (checked selected r)
  ∧ checked (toggleSelect selected (select_key r)) r' = checked selected r'.
Proof.
  intros flat Hr Hr' Hne. rewrite !checked_toggle.
  split; [by rewrite decide_True|].
  rewrite decide_False; [done|]. intros Hk. apply Hne.
  assert (Hsel : ∀ x, x ∈ flat → select_key x = dedup_key x).
  { intros x Hx. apply (rows_in_filtered engine_lawful) in Hx.
    unfold filtered in Hx. simpl in Hx.
    apply list_elem_of_filter in Hx as [Hv _].
    unfold keep_valid in Hv. apply andb_prop_elim in Hv as [_ He].
    unfold select_key, dedup_key. by destruct (e164 x) as [[|? ?]|]. }
  rewrite (Hsel r Hr), (Hsel r' Hr') in Hk.
  symmetry. by eapply (NoDup_fmap_inj_on dedup_key flat), Hk;
    [apply rows_keys_NoDup|..].
Qed.

Lemma length_concat_sum {X} (ls : list (list X)) :
  length (concat ls) = sum_list (length <$> ls).
Proof.
  induction ls as [|l ls IH]; [done|].
  simpl. by rewrite length_app, IH.
Qed.

(** X7: the total shown above the groups is the sum of the counts shown
    in the group headings; no group is empty; and the total never
    exceeds the number of tokens. *)
Theorem totals_add_up (rawText : list N) (cfg : Config) :
  let flat := rows rawText cfg in
  length flat = sum_list (length <$> (grouped flat).*2)
  ∧ Forall (λ g, g.2 ≠ []) (grouped flat)
  ∧ length flat ≤ length (tokenize rawText).
Proof.
  intros flat. split; [|split].
  - rewrite <- length_concat_sum. symmetry.
    apply Permutation_length, grouped_union.
  - rewrite grouped_spec. apply Forall_fmap, Forall_forall.
    intros k Hk. simpl.
    apply firsts_by_id_elem, list_elem_of_fmap in Hk as (x & -> & Hx).
    intros Hnil. eapply (filter_nil_not_elem_of _ _ x Hnil); done.
  - unfold flat. rewrite (rows_perm engine_lawful).
    etrans; [apply sublist_length, dedup_sublist|].
    unfold filtered, parsed. destruct (onlyValid cfg).
    + etrans; [apply length_filter|]. by rewrite length_fmap.
    + by rewrite length_fmap.
Qed.

End SelectionFacts.

Lemma checkbox_per_row_witness :
  let flat := @rows plan_authority insertion_engine
                (js "+9779812345678, +14155550123")
                {| defaultCountry := js "NP"; onlyValid := true;
                   sortAsc := true |} in
  let r := @parse_token plan_authority (js "NP") (js "+9779812345678") in
  let r' := @parse_token plan_authority (js "NP") (js "+14155550123") in
  lawful insertion_engine
  ∧ r ∈ flat ∧ r' ∈ flat ∧ r ≠ r'
  ∧ checked (toggleSelect [] (select_key r)) r = negb (checked [] r)
  ∧ checked (toggleSelect [] (select_key r)) r' = checked [] r'.
Proof.
  intros flat r r'.
  assert (Hr : r ∈ flat) by (apply (bool_decide_unpack _); by vm_compute).
  assert (Hr' : r' ∈ flat) by (apply (bool_decide_unpack _); by vm_compute).
  assert (Hne : r ≠ r') by (apply (bool_decide_unpack _); by vm_compute).
  split; [exact insertion_engine_lawful|].
  split; [exact Hr|]. split; [exact Hr'|]. split; [exact Hne|].
  exact (@checkbox_per_row plan_authority insertion_engine
           insertion_engine_lawful _ _ _ [] r r' Hr Hr' Hne).
Defined.

Lemma totals_add_up_witness :
  let flat := @rows plan_authority insertion_engine
                (js "+9779812345678, +14155550123, 12, 9812345678")
                (config "NP" false true) in
  lawful insertion_engine
  ∧ length flat = sum_list (length <$> (grouped flat).*2)
  ∧ Forall (λ g, g.2 ≠ []) (grouped flat)
  ∧ length flat
    ≤ length (tokenize (js "+9779812345678, +14155550123, 12, 9812345678")).
Proof.
  intros flat. split; [exact insertion_engine_lawful|].
  exact (@totals_add_up plan_authority insertion_engine
           insertion_engine_lawful _ (config "NP" false true)).
Defined.

(** ** The sort direction and the engine *)

Lemma sorted_perm_unique {X} (R : X → X → Prop) (l l' : list X) :
  (∀ x y z, R x y → R y z → R x z) →
  (∀ x y, x ∈ l → y ∈ l → R x y → R y x → x = y) →
  Sorted R l → Sorted R l' → l ≡ₚ l' → l = l'.
Proof.
  intros Htrans Hanti Hl Hl'.
  assert (HT : Transitive R) by (intros x y z; apply Htrans).
  apply Sorted_StronglySorted in Hl; [|done].
  apply Sorted_StronglySorted in Hl'; [|done].
  revert l' Hl' Hanti.
  induction Hl as [|x l Hl IH Hx]; intros l' Hl' Hanti Hp.
  - by apply Permutation_nil_l in Hp.
  - destruct Hl' as [|x' l' Hl' Hx'].
    { by apply Permutation_nil_r in Hp. }
    assert (x = x') as <-.
    { assert (Hin' : x' ∈ x :: l) by (rewrite Hp; left).
      assert (Hin : x ∈ x' :: l') by (rewrite <- Hp; left).
      apply elem_of_cons in Hin' as [?|Hin']; [done|].
      apply elem_of_cons in Hin as [?|Hin]; [done|].
      rewrite Forall_forall in Hx, Hx'.
      apply Hanti; [left|by right|by apply Hx|by apply Hx']. }
    f_equal. apply IH; [done| |by apply Permutation_cons_inv in Hp].
    intros a b Ha Hb. apply Hanti; by right.
Qed.

Lemma in_order_antisym asc (l : list ParsedRow) x y :
  NoDup (sort_key <$> l) → x ∈ l → y ∈ l →
  in_order asc x y → in_order asc y x → x = y.
Proof.
  intros Hnd Hx Hy Hxy Hyx.
  apply (NoDup_fmap_inj_on sort_key l); [done..|].
  unfold in_order in *. destruct asc; by apply str_lt_total.
Qed.

Section SortFacts.
Context `{Authority}.

Lemma rows_in_order `{E : SortEngine} (HE : lawful E) rawText cfg :
  Sorted (in_order (sortAsc cfg)) (rows rawText cfg).
Proof.
  destruct HE as [_ Hsorted]. apply Hsorted.
  - apply in_order_trans.
  - apply compare_rows_respects.
Qed.

(** X8: when the digit-only keys of the deduplicated records are
    pairwise distinct, the flat sequence does not depend on the engine:
    any two engines that honour the comparator return the same
    sequence. *)
Theorem rows_engine_independent
    (E1 E2 : SortEngine) (rawText : list N) (cfg : Config) :
  lawful E1 → lawful E2 →
  NoDup (sort_key <$> dedup rawText cfg) →
  @rows _ E1 rawText cfg = @rows _ E2 rawText cfg.
Proof.
  intros H1 H2 Hnd.
  apply (sorted_perm_unique (in_order (sortAsc cfg))).
  - apply in_order_trans.
  - intros x y Hx Hy. apply (in_order_antisym _ (@rows _ E1 rawText cfg));
      [by rewrite (rows_perm H1)|done..].
  - by apply rows_in_order.
  - by apply rows_in_order.
  - by rewrite (rows_perm H1), (rows_perm H2).
Qed.

(** X9: under the same condition, switching [sortAsc] reverses the
    flat sequence. *)
Theorem sort_direction_reverses `{E : SortEngine}
    (rawText dc : list N) (only : bool) :
  let cfg asc := {| defaultCountry := dc; onlyValid := only; sortAsc := asc |} in
  lawful E →
  NoDup (sort_key <$> dedup rawText (cfg true)) →
  rows rawText (cfg false) = reverse (rows rawText (cfg true)).
Proof.
  intros cfg HE Hnd.
  apply (sorted_perm_unique (in_order false)).
  - apply in_order_trans.
  - intros x y Hx Hy. apply (in_order_antisym _ (rows rawText (cfg false)));
      [|done..].
    by rewrite (rows_perm HE).
  - exact (rows_in_order HE rawText (cfg false)).
  - apply (Sorted_reverse (in_order true)), (rows_in_order HE rawText (cfg true)).
  - rewrite reverse_Permutation, !(rows_perm HE). done.
Qed.

End SortFacts.

Lemma rows_engine_independent_witness :
  let rawText := js "+14155550123, +442071838750, 10, 9" in
  let cfg := config "US" false true in
  lawful insertion_engine ∧ lawful insertion_engine'
  ∧ NoDup (sort_key <$> @dedup plan_authority rawText cfg)
  ∧ @rows plan_authority insertion_engine rawText cfg
    = @rows plan_authority insertion_engine' rawText cfg.
Proof.
  intros rawText cfg.
  assert (Hnd : NoDup (sort_key <$> @dedup plan_authority rawText cfg))
    by (apply (bool_decide_unpack _); by vm_compute).
  split; [exact insertion_engine_lawful|].
  split; [exact insertion_engine'_lawful|]. split; [exact Hnd|].
  exact (@rows_engine_independent plan_authority insertion_engine
           insertion_engine' rawText cfg insertion_engine_lawful
           insertion_engine'_lawful Hnd).
Defined.

Lemma sort_direction_reverses_witness :
  let rawText := js "+14155550123, +442071838750, 10, 9" in
  let cfg asc := {| defaultCountry := js "US"; onlyValid := false;
                    sortAsc := asc |} in
  lawful insertion_engine
  ∧ NoDup (sort_key <$> @dedup plan_authority rawText (cfg true))
  ∧ @rows plan_authority insertion_engine rawText (cfg false)
    = reverse (@rows plan_authority insertion_engine rawText (cfg true)).
Proof.
  intros rawText cfg.
  assert (Hnd : NoDup (sort_key <$> @dedup plan_authority rawText (cfg true)))
    by (apply (bool_decide_unpack _); by vm_compute).
  split; [exact insertion_engine_lawful|]. split; [exact Hnd|].
  exact (@sort_direction_reverses plan_authority insertion_engine
           rawText (js "US") false insertion_engine_lawful Hnd).
Defined.

(** ** Memoisation *)

(** X10: a render with the state variables of the render before it
    (as after ticking a checkbox, which changes none of the
    dependencies) computes nothing again: the cells are untouched, no
    array is allocated, and the views are the ones just shown. *)
Theorem render_again_reuses `{Authority} `{SortEngine}
    (rawText : list N) (cfg : Config) (h : hooks) :
  let first := render rawText cfg h in
  render rawText cfg first.2 = first.
Proof.
  intros first. unfold first, render.
  assert (Hrows : ∀ h0, let u := use_rows rawText cfg h0 in
            rows_memo u.2 = Some ((rawText, cfg), u.1)).
  { intros h0. unfold use_rows.
    destruct (rows_memo h0) as [[deps v]|] eqn:Hm; [|done].
    destruct (decide (deps = (rawText, cfg))) as [->|]; done. }
  specialize (Hrows h). simpl in Hrows.
  destruct (use_rows rawText cfg h) as [r h1]. simpl in Hrows.
  assert (Hg : let u := use_grouped r h1 in
            grouped_memo u.2 = Some (r.1, u.1) ∧ rows_memo u.2 = rows_memo h1).
  { unfold use_grouped.
    destruct (grouped_memo h1) as [[dep g]|] eqn:Hm; [|done].
    destruct (decide (dep = r.1)) as [->|]; done. }
  simpl in Hg. destruct (use_grouped r h1) as [g h2]. simpl in *.
  destruct Hg as [Hg Hr2]. rewrite Hrows in Hr2.
  unfold use_rows. rewrite Hr2, decide_True by done.
  unfold use_grouped. rewrite Hg, decide_True by done. done.
Qed.

(** ** The CSV export *)

Lemma count_char_app c (a b : list N) :
  count_char c (a ++ b) = count_char c a + count_char c b.
Proof. unfold count_char. by rewrite filter_app, length_app. Qed.

Lemma count_char_absent c (a : list N) : c ∉ a → count_char c a = 0.
Proof.
  unfold count_char. induction a as [|x a IH]; [done|].
  intros [Hne Ha]%not_elem_of_cons.
  rewrite filter_cons, decide_False by done. by apply IH.
Qed.

Lemma join_cons sep (x : list N) xs :
  xs ≠ [] → join sep (x :: xs) = x ++ sep ++ join sep xs.
Proof. by destruct xs. Qed.

Lemma join_absent c sep (xs : list (list N)) :
  c ∉ sep → Forall (λ x, c ∉ x) xs → c ∉ join sep xs.
Proof.
  intros Hsep. induction 1 as [|x xs Hx Hxs IH]; [apply not_elem_of_nil|].
  destruct xs as [|y xs]; [done|].
  rewrite join_cons by done. rewrite !not_elem_of_app. done.
Qed.

Lemma join_count_sep c (xs : list (list N)) :
  Forall (λ x, c ∉ x) xs → count_char c (join [c] xs) = pred (length xs).
Proof.
  induction 1 as [|x xs Hx Hxs IH]; [done|].
  destruct xs as [|y xs]; [by apply count_char_absent|].
  rewrite join_cons by done. rewrite !count_char_app, IH.
  rewrite (count_char_absent c x Hx). unfold count_char at 1.
  rewrite filter_cons, decide_True by done. done.
Qed.

Lemma csv_line_no_newline (r : list (list N)) :
  Forall (λ cell, newline ∉ cell) r → newline ∉ csv_line r.
Proof.
  intros Hr. unfold csv_line. apply join_absent.
  - by intros ?%list_elem_of_singleton.
  - apply Forall_fmap. eapply Forall_impl; [exact Hr|].
    intros cell Hcell. unfold csv_cell. simpl.
    rewrite not_elem_of_cons, not_elem_of_app. split; [done|].
    split; [by destruct cell|]. by intros ?%list_elem_of_singleton.
Qed.

(** X11: when no canonical field of the records holds a line break,
    the exported text has the header line and one line per record: it
    holds as many line breaks as there are records. *)
Theorem export_csv_lines (rows : list ParsedRow) :
  Forall (λ r, Forall (λ cell, newline ∉ cell) (export_row r)) rows →
  count_char newline (export_csv rows) = length rows.
Proof.
  intros Hrows. unfold export_csv, csv_text.
  rewrite join_count_sep.
  - rewrite length_fmap. simpl. by rewrite length_fmap.
  - apply Forall_fmap, Forall_cons. split.
    + apply csv_line_no_newline.
      apply (bool_decide_unpack _). by vm_compute.
    + apply Forall_fmap. eapply Forall_impl; [exact Hrows|].
      intros r Hr. by apply csv_line_no_newline.
Qed.

Lemma export_csv_lines_witness :
  let rows := @rows plan_authority insertion_engine
                (js "+9779812345678, +14155550123, 12")
                (config "NP" false true) in
  Forall (λ r, Forall (λ cell, newline ∉ cell) (export_row r)) rows
  ∧ count_char newline (export_csv rows) = length rows.
Proof.
  intros rows.
  assert (Hrows : Forall (λ r, Forall (λ cell, newline ∉ cell) (export_row r))
                         rows)
    by (apply (bool_decide_unpack _); by vm_compute).
  split; [exact Hrows|]. exact (export_csv_lines rows Hrows).
Defined.

(** X12: a record that is not valid is exported as four empty cells,
    whatever the authority did with its token: neither the token nor its
    cleaned form reaches the file. *)
Theorem invalid_row_exports_empty `{Authority} (dc tok : list N) :
  valid (parse_token dc tok) = false →
  csv_line (export_row (parse_token dc tok)) = empty_export_line.
Proof.
  intros Hv.
  pose proof (parse_token_chain dc tok) as Hch. cbv zeta in Hch.
  destruct Hch as (Hc & Hn & Hi & He & _).
  assert (He' : e164 (parse_token dc tok) = None).
  { destruct (e164 (parse_token dc tok)) eqn:Heq; [|done].
    rewrite He in Hv by eauto. done. }
  assert (Hi' : international (parse_token dc tok) = None).
  { destruct (international (parse_token dc tok)) eqn:Heq; [|done].
    destruct Hi as [? Hi]; [eauto|]. congruence. }
  assert (Hn' : national (parse_token dc tok) = None).
  { destruct (national (parse_token dc tok)) eqn:Heq; [|done].
    destruct Hn as [? Hn]; [eauto|]. congruence. }
  assert (Hc' : row_country (parse_token dc tok) = None).
  { destruct (row_country (parse_token dc tok)) eqn:Heq; [|done].
    destruct Hc as [? Hc]; [eauto|]. congruence. }
  unfold export_row. by rewrite He', Hi', Hn', Hc'.
Qed.

Lemma invalid_row_exports_empty_witness :
  valid (@parse_token plan_authority (js "NP") (js "12 34")) = false
  ∧ csv_line (export_row (@parse_token plan_authority (js "NP") (js "12 34")))
    = empty_export_line.
Proof.
  assert (Hv : valid (@parse_token plan_authority (js "NP") (js "12 34"))
               = false) by reflexivity.
  split; [exact Hv|].
  exact (@invalid_row_exports_empty plan_authority (js "NP") (js "12 34") Hv).
Defined.

(** ** The delimiter split *)

Lemma backtrack_const k lo n :
  Regex.backtrack k lo (λ _, Some n) = if k <? lo then None else Some (k + n).
Proof. destruct k; simpl; by destruct (_ <? _). Qed.

Lemma match_at_separator s : Regex.match_at separator_re s = sep_len s.
Proof.
  unfold separator_re, sep_len, Regex.match_at, Regex.match_seq,
    Regex.greedy_count. simpl. rewrite !backtrack_const.
  destruct (Regex.run_len Char.is_delim s <? 1);
    destruct (Regex.run_len Char.is_space s <? 2); by rewrite ?Nat.add_0_r.
Qed.

Lemma sep_len_None c s :
  sep_len (c :: s) = None →
  Char.is_delim c = false
  ∧ (Char.is_space c = true → ∀ c', head s = Some c' → Char.is_space c' = false).
Proof.
  unfold sep_len. simpl.
  destruct (Char.is_delim c); [done|]. simpl.
  destruct (Char.is_space c); [|done].
  destruct s as [|c' s]; simpl; [done|].
  destruct (Char.is_space c') eqn:Hc'; [done|].
  intros _. split; [done|]. by intros _ ? [= <-].
Qed.

Lemma sep_len_pos s : sep_len s ≠ Some 0.
Proof.
  unfold sep_len.
  destruct (Regex.run_len Char.is_delim s <? 1) eqn:Hd.
  - destruct (Regex.run_len Char.is_space s <? 2) eqn:Hw; [done|].
    apply Nat.ltb_ge in Hw. intros [= ?]. lia.
  - apply Nat.ltb_ge in Hd. intros [= ?]. lia.
Qed.

Lemma no_ws_pair_snoc (acc : list N) c :
  no_ws_pair acc = true →
  (∀ a, last acc = Some a → Char.is_space a = true → Char.is_space c = false) →
  no_ws_pair (acc ++ [c]) = true.
Proof.
  induction acc as [|a acc IH]; [done|]. intros Hacc Hlast.
  destruct acc as [|b acc].
  - simpl. destruct (Char.is_space a) eqn:Ha; [|done].
    by rewrite (Hlast a eq_refl Ha).
  - change (no_ws_pair (a :: b :: acc) = true) in Hacc.
    change ((a :: b :: acc) ++ [c]) with (a :: (b :: acc) ++ [c]).
    simpl in Hacc |- *. apply andb_true_iff in Hacc as [Hab Hacc].
    rewrite Hab. simpl. apply IH; [done|].
    intros x Hx. apply Hlast. by rewrite last_cons_cons.
Qed.

Lemma no_ws_pair_app (a b : list N) :
  no_ws_pair (a ++ b) = true → no_ws_pair a = true ∧ no_ws_pair b = true.
Proof.
  induction a as [|x a IH]; [done|]. intros Hab.
  destruct a as [|y a].
  - simpl in Hab. destruct b as [|z b]; [done|].
    apply andb_true_iff in Hab as [_ Hb]. done.
  - change ((x :: y :: a) ++ b) with (x :: y :: (a ++ b)) in Hab.
    simpl in Hab. apply andb_true_iff in Hab as [Hxy Hrest].
    destruct (IH Hrest) as [Ha Hb]. split; [|done].
    simpl. rewrite Hxy. exact Ha.
Qed.

Lemma split_from_skip r k (acc : list N) c s :
  Regex.split_from r (S k) acc (c :: s) = Regex.split_from r k acc s.
Proof. reflexivity. Qed.

Lemma split_from_try r (acc : list N) c s :
  Regex.split_from r 0 acc (c :: s)
  = match Regex.match_at r (c :: s) with
    | Some (S n) => acc :: Regex.split_from r n [] s
    | _ => Regex.split_from r 0 (acc ++ [c]) s
    end.
Proof. reflexivity. Qed.

Lemma split_from_pieces skip (acc s : list N) :
  piece_ok acc → (skip ≠ 0 → acc = []) →
  (∀ a c, last acc = Some a → head s = Some c →
          Char.is_space a = true → Char.is_space c = false) →
  Forall piece_ok (Regex.split_from separator_re skip acc s).
Proof.
  revert skip acc. induction s as [|c s IH]; intros skip acc Hacc Hskip Hjoin.
  - simpl. by apply Forall_singleton.
  - destruct skip as [|k].
    + rewrite split_from_try, match_at_separator.
      destruct (sep_len (c :: s)) as [[|n]|] eqn:Hsep.
      * by apply sep_len_pos in Hsep.
      * apply Forall_cons. split; [done|].
        apply IH; [by split| done |]. by intros a c' [=].
      * apply sep_len_None in Hsep as [Hd Hws].
        destruct Hacc as [Hfa Hnp].
        apply IH; [split| done |].
        -- apply Forall_app. split; [done|]. by apply Forall_singleton.
        -- apply no_ws_pair_snoc; [done|]. intros a Ha Hsa.
           by apply (Hjoin a c).
        -- intros a c' Ha Hc' Hsa. rewrite last_snoc in Ha.
           injection Ha as <-. by apply Hws.
    + rewrite split_from_skip, (Hskip ltac:(done)).
      apply IH; [by split| done |]. by intros a c' [=].
Qed.

Lemma split_from_chars (P : N → Prop) r skip (acc s : list N) :
  Forall P acc → Forall P s → Forall (Forall P) (Regex.split_from r skip acc s).
Proof.
  revert skip acc. induction s as [|c s IH]; intros skip acc Hacc Hs.
  - simpl. by apply Forall_singleton.
  - apply Forall_cons in Hs as [Hc Hs]. destruct skip as [|k].
    + rewrite split_from_try.
      destruct (Regex.match_at r (c :: s)) as [[|n]|].
      * apply IH; [|done]. apply Forall_app. split; [done|].
        by apply Forall_singleton.
      * apply Forall_cons. split; [done|]. by apply IH.
      * apply IH; [|done]. apply Forall_app. split; [done|].
        by apply Forall_singleton.
    + rewrite split_from_skip. by apply IH.
Qed.

(** ** Trimming *)

Lemma drop_while_decomp p (l : list N) :
  ∃ w, l = w ++ Str.drop_while p l ∧ Forall (λ c, p c = true) w.
Proof.
  induction l as [|c l (w & Hl & Hw)]; [by exists []|]. simpl.
  destruct (p c) eqn:Hc.
  - exists (c :: w). split; [by rewrite Hl at 1|by constructor].
  - by exists [].
Qed.

Lemma drop_while_all p (l : list N) :
  Forall (λ c, p c = true) l → Str.drop_while p l = [].
Proof. induction 1 as [|c l Hc Hl IH]; [done|]. simpl. by rewrite Hc. Qed.

Lemma trim_decomp (s : list N) :
  ∃ w1 w2, s = w1 ++ Str.trim s ++ w2
           ∧ Forall (λ c, Char.is_space c = true) w1
           ∧ Forall (λ c, Char.is_space c = true) w2.
Proof.
  unfold Str.trim.
  destruct (drop_while_decomp Char.is_space s) as (w1 & Hs & Hw1).
  destruct (drop_while_decomp Char.is_space
              (rev (Str.drop_while Char.is_space s))) as (w2 & Hr & Hw2).
  exists w1, (rev w2). split; [|split; [done|]].
  - rewrite Hs at 1. f_equal. rewrite <- rev_app_distr, <- Hr.
    by rewrite rev_involutive.
  - apply Forall_forall. intros c Hc. rewrite Forall_forall in Hw2.
    apply Hw2. apply list_elem_of_In. apply list_elem_of_In in Hc.
    by apply in_rev.
Qed.

Lemma trim_ends (s : list N) :
  Str.trim s = []
  ∨ ∃ c t e u, Str.trim s = c :: t ∧ Str.trim s = u ++ [e]
               ∧ Char.is_space c = false ∧ Char.is_space e = false.
Proof.
  unfold Str.trim.
  set (x := Str.drop_while Char.is_space s).
  destruct (drop_while_decomp Char.is_space (rev x)) as (w2 & Hr & Hw2).
  destruct (Str.drop_while Char.is_space (rev x)) as [|e q] eqn:Hq;
    [by left|right].
  assert (He : Char.is_space e = false)
    by (apply (drop_while_head _ (rev x)); by rewrite Hq).
  assert (Hx : x = rev (e :: q) ++ rev w2).
  { rewrite <- rev_app_distr, <- Hr. by rewrite rev_involutive. }
  destruct (rev (e :: q)) as [|c t] eqn:Hrev.
  { simpl in Hrev. by destruct (rev q). }
  exists c, t, e, (rev q). split; [done|]. split; [by rewrite <- Hrev|].
  split; [|done].
  apply (drop_while_head Char.is_space s). fold x. by rewrite Hx.
Qed.

Lemma trim_idempotent (s : list N) : Str.trim (Str.trim s) = Str.trim s.
Proof.
  destruct (trim_ends s) as [->|(c & t & e & u & Hc & He & Hsc & Hse)]; [done|].
  by apply (trim_id _ c t e u).
Qed.

Lemma trim_all_space (s : list N) :
  Forall (λ c, Char.is_space c = true) s → Str.trim s = [].
Proof. intros Hs. unfold Str.trim. by rewrite (drop_while_all _ _ Hs). Qed.

Lemma trim_piece_ok (p : list N) : piece_ok p → piece_ok (Str.trim p).
Proof.
  intros [Hd Hp]. destruct (trim_decomp p) as (w1 & w2 & Heq & _ & _).
  rewrite Heq in Hd, Hp.
  apply Forall_app in Hd as [_ Hd]. apply Forall_app in Hd as [Hd _].
  apply no_ws_pair_app in Hp as [_ Hp]. apply no_ws_pair_app in Hp as [Hp _].
  done.
Qed.

Lemma trim_chars (P : N → Prop) (p : list N) :
  Forall P p → Forall P (Str.trim p).
Proof.
  intros Hp. destruct (trim_decomp p) as (w1 & w2 & Heq & _ & _).
  rewrite Heq in Hp.
  apply Forall_app in Hp as [_ Hp]. by apply Forall_app in Hp as [Hp _].
Qed.

Lemma replace_nbsp_chars (input : list N) :
  Forall (λ c, c ≠ Char.nbsp) (Str.replace_nbsp input).
Proof.
  unfold Str.replace_nbsp. apply Forall_fmap, Forall_forall. intros c _.
  simpl. unfold Char.is_nbsp. destruct (c =? 160)%N eqn:Hc; [done|].
  by apply N.eqb_neq in Hc.
Qed.

(** X13: every candidate the delimiter split yields is non-empty, has
    no white space at either end, holds no newline, comma, semicolon,
    tab or no-break space, and never two white-space characters in a
    row. *)
Theorem candidates_well_formed (input : list N) :
  Forall candidate_ok (candidates input).
Proof.
  unfold candidates. apply Forall_forall. intros t Ht.
  apply list_elem_of_filter in Ht as [Htr Ht].
  apply list_elem_of_fmap in Ht as (p & -> & Hp).
  assert (Hok : piece_ok p).
  { pose proof (split_from_pieces 0 [] (Str.replace_nbsp input)) as Hall.
    rewrite Forall_forall in Hall. apply Hall; [by split|done| |done].
    by intros a c [=]. }
  assert (Hch : Forall (λ c, c ≠ Char.nbsp) p).
  { pose proof (split_from_chars (λ c, c ≠ Char.nbsp) separator_re 0 []
                  (Str.replace_nbsp input) (Forall_nil_2 _)
                  (replace_nbsp_chars input)) as Hall.
    rewrite Forall_forall in Hall. by apply Hall. }
  destruct (trim_piece_ok p Hok) as [Hd Hnp].
  split; [by destruct (Str.trim p)|]. split; [apply trim_idempotent|].
  split; [|done].
  apply (trim_chars _ p) in Hch.
  rewrite Forall_forall in Hd, Hch. apply Forall_forall. intros c Hc.
  split; [by apply Hd|by apply Hch].
Qed.

(** ** Input without numbers *)

Lemma digit_not_delim c : Char.is_digit c = true → Char.is_delim c = false.
Proof.
  unfold Char.is_digit, Char.is_delim. intros Hd.
  apply andb_true_iff in Hd as [H1 H2].
  apply N.leb_le in H1. apply N.leb_le in H2.
  repeat (apply orb_false_iff; split); apply N.eqb_neq; lia.
Qed.

Lemma filter_none {X} (P : X → Prop) `{∀ x, Decision (P x)} (l : list X) :
  Forall (λ x, ¬ P x) l → filter P l = [].
Proof.
  induction 1 as [|x l Hx Hl IH]; [done|].
  by rewrite filter_cons, decide_False.
Qed.

Lemma candidates_blank (input : list N) :
  Forall (λ c, Char.is_space c = true ∨ Char.is_delim c = true) input →
  candidates input = [].
Proof.
  intros Hin. unfold candidates. apply filter_none, Forall_fmap, Forall_forall.
  intros p Hp. simpl.
  assert (Hin' : Forall (λ c, Char.is_space c = true ∨ Char.is_delim c = true)
                        (Str.replace_nbsp input)).
  { unfold Str.replace_nbsp. apply Forall_fmap.
    eapply Forall_impl; [exact Hin|]. intros c Hc. simpl.
    destruct (Char.is_nbsp c); [by left|done]. }
  pose proof (split_from_chars _ separator_re 0 [] _ (Forall_nil_2 _) Hin')
    as Hch.
  pose proof (split_from_pieces 0 [] (Str.replace_nbsp input)) as Hok.
  rewrite Forall_forall in Hch, Hok.
  destruct (Hok ltac:(by split) ltac:(done) ltac:(by intros a c [=]) p Hp)
    as [Hd _].
  specialize (Hch p Hp).
  rewrite trim_all_space; [by intros []|].
  rewrite Forall_forall in Hd, Hch. apply Forall_forall. intros c Hc.
  destruct (Hch c Hc) as [?|Hdel]; [done|]. by rewrite (Hd c Hc) in Hdel.
Qed.

Lemma embedded_needs_digit (input : list N) :
  Forall (λ c, Char.is_digit c = false) input → embedded input = [].
Proof.
  intros Hin. unfold embedded.
  destruct (Regex.match_all embedded_re input) as [|m l] eqn:Hm; [done|].
  exfalso.
  assert (Hel : m ∈ Regex.match_all embedded_re input) by (rewrite Hm; left).
  apply match_all_embedded in Hel
    as [(p & d & body & e & -> & _ & Hd & _) (pre & post & Heq)].
  rewrite Forall_forall in Hin.
  assert (Hdin : d ∈ input).
  { rewrite Heq. rewrite !elem_of_app. right. left. right. left. }
  by rewrite (Hin d Hdin) in Hd.
Qed.

(** X14: a text made only of white space and delimiters (the empty
    text after [Clear] among them) yields no token, so the list is
    empty and no group is shown. *)
Theorem blank_input_no_rows `{Authority} `{E : SortEngine}
    (input : list N) (cfg : Config) :
  lawful E →
  Forall (λ c, Char.is_space c = true ∨ Char.is_delim c = true) input →
  tokenize input = []
  ∧ rows input cfg = []
  ∧ grouped (rows input cfg) = [].
Proof.
  intros HE Hin.
  assert (Htok : tokenize input = []).
  { unfold tokenize. rewrite (candidates_blank input Hin).
    rewrite embedded_needs_digit; [done|].
    eapply Forall_impl; [exact Hin|]. intros c Hc. simpl in Hc.
    destruct (Char.is_digit c) eqn:Hd; [|done].
    rewrite (digit_not_space c Hd), (digit_not_delim c Hd) in Hc.
    by destruct Hc. }
  assert (Hrows : rows input cfg = []).
  { apply Permutation_nil_r. rewrite (rows_perm HE).
    unfold dedup, filtered, parsed. rewrite Htok.
    by destruct (onlyValid cfg). }
  by rewrite Hrows.
Qed.

Lemma blank_input_no_rows_witness :
  let input := js " ,;  " ++ [newline; Char.nbsp] in
  lawful insertion_engine
  ∧ Forall (λ c, Char.is_space c = true ∨ Char.is_delim c = true) input
  ∧ tokenize input = []
  ∧ @rows plan_authority insertion_engine input (config "NP" false true) = []
  ∧ grouped (@rows plan_authority insertion_engine input
               (config "NP" false true)) = [].
Proof.
  intros input.
  assert (Hin : Forall (λ c, Char.is_space c = true ∨ Char.is_delim c = true)
                       input)
    by (apply (bool_decide_unpack _); by vm_compute).
  split; [exact insertion_engine_lawful|]. split; [exact Hin|].
  exact (@blank_input_no_rows plan_authority insertion_engine input
           (config "NP" false true) insertion_engine_lawful Hin).
Defined.

(** ** Splitting a text that was joined with newlines *)

Lemma run_len_all p (w : list N) :
  Forall (λ c, p c = true) w → Regex.run_len p w = length w.
Proof. induction 1 as [|c w Hc Hw IH]; [done|]. simpl. by rewrite Hc, IH. Qed.

Lemma run_len_app_all p (w s : list N) :
  Forall (λ c, p c = true) w →
  Regex.run_len p (w ++ s) = length w + Regex.run_len p s.
Proof. induction 1 as [|c w Hc Hw IH]; [done|]. simpl. by rewrite Hc, IH. Qed.

Lemma run_len_app_short p (a x : list N) :
  Regex.run_len p a < length a → Regex.run_len p (a ++ x) = Regex.run_len p a.
Proof.
  induction a as [|c a IH]; simpl; [lia|].
  destruct (p c); [|done]. intros Hlt. rewrite IH; [done|lia].
Qed.

Lemma run_len_full p (a : list N) :
  Regex.run_len p a = length a → Forall (λ c, p c = true) a.
Proof.
  induction a as [|c a IH]; [by constructor|]. simpl.
  destruct (p c) eqn:Hc; [|done]. intros [= Hlen]. constructor; auto.
Qed.

Lemma split_from_drop r k (acc s : list N) :
  k ≤ length s →
  Regex.split_from r k acc s = Regex.split_from r 0 acc (drop k s).
Proof.
  revert k. induction s as [|c s IH]; intros k Hk.
  - simpl in Hk. by replace k with 0 by lia.
  - destruct k as [|k]; [done|]. rewrite split_from_skip. simpl in Hk.
    simpl. apply IH. lia.
Qed.

Lemma sep_len_le (s : list N) n : sep_len s = Some n → 1 ≤ n ∧ n ≤ length s.
Proof.
  unfold sep_len.
  pose proof (RegexFacts.run_len_le Char.is_delim s).
  pose proof (RegexFacts.run_len_le Char.is_space s).
  destruct (Regex.run_len Char.is_delim s <? 1) eqn:Hd.
  - destruct (Regex.run_len Char.is_space s <? 2) eqn:Hw; [done|].
    apply Nat.ltb_ge in Hw. intros [= <-]. lia.
  - apply Nat.ltb_ge in Hd. intros [= <-]. lia.
Qed.

(** The two moves of the split at a position where no separator is
    being passed over. *)
Lemma split_at_separator (acc s : list N) n :
  sep_len s = Some n →
  Regex.split_from separator_re 0 acc s
  = acc :: Regex.split_from separator_re 0 [] (drop n s).
Proof.
  intros Hsep. destruct (sep_len_le s n Hsep) as [Hn Hlen].
  destruct s as [|c s]; [simpl in Hlen; lia|].
  rewrite split_from_try, match_at_separator, Hsep.
  destruct n as [|n]; [lia|]. simpl in Hlen.
  rewrite split_from_drop by lia. done.
Qed.

Lemma split_at_char (acc : list N) c s :
  sep_len (c :: s) = None →
  Regex.split_from separator_re 0 acc (c :: s)
  = Regex.split_from separator_re 0 (acc ++ [c]) s.
Proof.
  intros Hsep. by rewrite split_from_try, match_at_separator, Hsep.
Qed.

Lemma kept_pieces_cons (x : list N) l :
  kept_pieces (x :: l)
  = (if Str.truthy (Str.trim x) then [Str.trim x] else []) ++ kept_pieces l.
Proof.
  unfold kept_pieces. rewrite fmap_cons, filter_cons.
  destruct (decide (Str.truthy (Str.trim x))) as [Ht|Ht].
  - apply Is_true_true in Ht. by rewrite Ht.
  - apply Is_true_false in Ht. by rewrite Ht.
Qed.

Lemma drop_while_app_all p (u x : list N) :
  Forall (λ c, p c = true) u → Str.drop_while p (u ++ x) = Str.drop_while p x.
Proof. induction 1 as [|c u Hc Hu IH]; [done|]. simpl. by rewrite Hc. Qed.

Lemma trim_leading (u x : list N) :
  Forall (λ c, Char.is_space c = true) u → Str.trim (u ++ x) = Str.trim x.
Proof. intros Hu. unfold Str.trim. by rewrite drop_while_app_all. Qed.

Lemma trim_trailing (x w : list N) :
  Forall (λ c, Char.is_space c = true) w → Str.trim (x ++ w) = Str.trim x.
Proof.
  intros Hw. unfold Str.trim.
  destruct (drop_while_decomp Char.is_space x) as (u & Hx & Hu).
  destruct (Str.drop_while Char.is_space x) as [|c y] eqn:Hy.
  - rewrite app_nil_r in Hx. subst x.
    rewrite (drop_while_all Char.is_space (u ++ w))
      by (apply Forall_app; by split). done.
  - assert (Hc : Char.is_space c = false)
      by (apply (drop_while_head _ x); by rewrite Hy).
    rewrite Hx at 1. rewrite <- app_assoc, drop_while_app_all by done.
    simpl. rewrite Hc.
    change (c :: y ++ w) with ((c :: y) ++ w).
    rewrite rev_app_distr, drop_while_app_all; [done|].
    apply Forall_forall. intros z Hz. rewrite Forall_forall in Hw.
    apply Hw, list_elem_of_In, in_rev. by apply list_elem_of_In.
Qed.

Lemma kept_pieces_leading (u acc s : list N) :
  Forall (λ c, Char.is_space c = true) u →
  kept_pieces (Regex.split_from separator_re 0 (u ++ acc) s)
  = kept_pieces (Regex.split_from separator_re 0 acc s).
Proof.
  intros Hu. revert acc.
  induction s as [s IH] using (induction_ltof1 _ (@length N)).
  unfold ltof in IH. intros acc. destruct s as [|c s].
  - simpl. by rewrite !kept_pieces_cons, trim_leading.
  - destruct (sep_len (c :: s)) as [n|] eqn:Hsep.
    + rewrite !(split_at_separator _ _ n Hsep).
      by rewrite !kept_pieces_cons, trim_leading.
    + rewrite !(split_at_char _ _ _ Hsep), <- app_assoc.
      apply IH. simpl. lia.
Qed.

Lemma sep_len_delim (s : list N) :
  1 ≤ Regex.run_len Char.is_delim s →
  sep_len s = Some (Regex.run_len Char.is_delim s).
Proof.
  intros Hd. unfold sep_len.
  by replace (_ <? 1) with false by (symmetry; apply Nat.ltb_ge; lia).
Qed.

Lemma sep_len_space (s : list N) :
  Regex.run_len Char.is_delim s = 0 →
  2 ≤ Regex.run_len Char.is_space s →
  sep_len s = Some (Regex.run_len Char.is_space s).
Proof.
  intros Hd Hw. unfold sep_len. rewrite Hd. simpl.
  by replace (_ <? 2) with false by (symmetry; apply Nat.ltb_ge; lia).
Qed.

Lemma sep_len_neither (s : list N) :
  Regex.run_len Char.is_delim s = 0 →
  Regex.run_len Char.is_space s < 2 →
  sep_len s = None.
Proof.
  intros Hd Hw. unfold sep_len. rewrite Hd. simpl.
  by replace (_ <? 2) with true by (symmetry; apply Nat.ltb_lt; lia).
Qed.

Lemma kept_pieces_nil_piece l : kept_pieces ([] :: l) = kept_pieces l.
Proof. by rewrite kept_pieces_cons. Qed.

Lemma kept_pieces_space_piece (u : list N) l :
  Forall (λ c, Char.is_space c = true) u →
  kept_pieces (u :: l) = kept_pieces l.
Proof. intros Hu. by rewrite kept_pieces_cons, trim_all_space. Qed.

(** White space in front of a text does not change the kept pieces. *)
Lemma kept_pieces_skip_space n :
  ∀ w s u : list N,
    length w + length s ≤ n →
    Forall (λ c, Char.is_space c = true) w →
    Forall (λ c, Char.is_space c = true) u →
    kept_pieces (Regex.split_from separator_re 0 u (w ++ s))
    = kept_pieces (Regex.split_from separator_re 0 [] s).
Proof.
  induction n as [|n IH]; intros w s u Hlen Hw Hu.
  - destruct w; [|simpl in Hlen; lia]. simpl.
    rewrite <- (app_nil_r u). by apply kept_pieces_leading.
  - destruct w as [|c w].
    { simpl. rewrite <- (app_nil_r u). by apply kept_pieces_leading. }
    apply Forall_cons in Hw as [Hc Hw]. simpl in Hlen.
    change ((c :: w) ++ s) with (c :: w ++ s).
    destruct (sep_len (c :: w ++ s)) as [k|] eqn:Hsep.
    + rewrite (split_at_separator _ _ k Hsep), kept_pieces_space_piece by done.
      change (c :: w ++ s) with ((c :: w) ++ s) in *.
      assert (Hcw : Forall (λ x, Char.is_space x = true) (c :: w))
        by (by constructor).
      remember (c :: w) as cw eqn:Hcwdef.
      assert (Hcwlen : length cw = S (length w)) by (by subst cw).
      remember (Regex.run_len Char.is_delim (cw ++ s)) as d eqn:Hddef.
      destruct (decide (1 ≤ d)) as [Hd|Hd].
      * assert (Hk : k = d).
        { rewrite sep_len_delim in Hsep by lia. congruence. }
        subst k.
        destruct (decide (d ≤ length cw)) as [Hle|Hgt].
        -- rewrite drop_app_le by done.
           apply IH; [|by apply Forall_drop|done].
           rewrite length_drop. lia.
        -- assert (Hall : Regex.run_len Char.is_delim cw = length cw).
           { pose proof (RegexFacts.run_len_le Char.is_delim cw) as Hrl.
             destruct (decide (Regex.run_len Char.is_delim cw = length cw))
               as [?|Hne]; [done|].
             exfalso. apply Hgt. rewrite Hddef.
             rewrite run_len_app_short by lia. lia. }
           apply run_len_full in Hall.
           assert (Hd' : d = length cw + Regex.run_len Char.is_delim s).
           { rewrite Hddef. by rewrite run_len_app_all. }
           rewrite drop_app_ge by lia.
           replace (d - length cw) with (Regex.run_len Char.is_delim s) by lia.
           rewrite (split_at_separator [] s (Regex.run_len Char.is_delim s))
             by (apply sep_len_delim; lia).
           by rewrite kept_pieces_nil_piece.
      * assert (Hd0 : Regex.run_len Char.is_delim (cw ++ s) = 0) by lia.
        assert (Ht : Regex.run_len Char.is_space (cw ++ s)
                     = length cw + Regex.run_len Char.is_space s)
          by (by apply run_len_app_all).
        destruct (decide (2 ≤ Regex.run_len Char.is_space (cw ++ s)))
          as [H2|H2].
        -- assert (Hk : k = length cw + Regex.run_len Char.is_space s).
           { rewrite sep_len_space in Hsep by done. congruence. }
           subst k. rewrite drop_app_ge by lia.
           replace (length cw + Regex.run_len Char.is_space s - length cw)
             with (Regex.run_len Char.is_space s) by lia.
           pose proof (IH (take (Regex.run_len Char.is_space s) s)
                          (drop (Regex.run_len Char.is_space s) s) []) as IH'.
           rewrite take_drop in IH'. symmetry. apply IH'; [| |done].
           ++ rewrite length_take, length_drop. lia.
           ++ by apply RegexFacts.run_len_take.
        -- rewrite sep_len_neither in Hsep by (done || lia). done.
    + rewrite (split_at_char _ _ _ Hsep).
      apply IH; [lia|done|]. apply Forall_app. split; [done|].
      by apply Forall_singleton.
Qed.

(** A text of white space only adds nothing to the piece before it. *)
Lemma kept_pieces_only_space n :
  ∀ w acc : list N,
    length w ≤ n →
    Forall (λ c, Char.is_space c = true) w →
    kept_pieces (Regex.split_from separator_re 0 acc w) = kept_pieces [acc].
Proof.
  induction n as [|n IH]; intros w acc Hlen Hw.
  - by destruct w; [|simpl in Hlen; lia].
  - destruct w as [|c w]; [done|].
    destruct (sep_len (c :: w)) as [k|] eqn:Hsep.
    + destruct (sep_len_le _ _ Hsep) as [Hk1 Hk2].
      rewrite (split_at_separator _ _ k Hsep).
      rewrite kept_pieces_cons, (kept_pieces_cons acc []).
      f_equal. rewrite IH; [done| |by apply Forall_drop].
      rewrite length_drop. simpl in *. lia.
    + rewrite (split_at_char _ _ _ Hsep).
      apply Forall_cons in Hw as [Hc Hw]. simpl in Hlen.
      rewrite IH by (done || lia).
      rewrite !kept_pieces_cons, trim_trailing; [done|].
      by apply Forall_singleton.
Qed.

Lemma kept_pieces_after_delims (b : list N) :
  kept_pieces (Regex.split_from separator_re 0 []
                 (drop (Regex.run_len Char.is_delim b) b))
  = kept_pieces (Regex.split_from separator_re 0 [] b).
Proof.
  destruct (decide (1 ≤ Regex.run_len Char.is_delim b)) as [Hd|Hd].
  - rewrite (split_at_separator [] b _ (sep_len_delim b Hd)).
    by rewrite kept_pieces_nil_piece.
  - by replace (Regex.run_len Char.is_delim b) with 0 by lia.
Qed.

Lemma kept_pieces_after_space (b : list N) :
  kept_pieces (Regex.split_from separator_re 0 []
                 (drop (Regex.run_len Char.is_space b) b))
  = kept_pieces (Regex.split_from separator_re 0 [] b).
Proof.
  pose proof (kept_pieces_skip_space (length b)
                (take (Regex.run_len Char.is_space b) b)
                (drop (Regex.run_len Char.is_space b) b) []) as Hskip.
  rewrite take_drop in Hskip. symmetry. apply Hskip; [| |done].
  - rewrite length_take, length_drop. lia.
  - by apply RegexFacts.run_len_take.
Qed.

(** The split of two texts joined by a newline: the kept pieces of the
    first, then those of the second. *)
Lemma kept_pieces_newline n :
  ∀ a acc b : list N,
    length a ≤ n →
    kept_pieces (Regex.split_from separator_re 0 acc (a ++ newline :: b))
    = kept_pieces (Regex.split_from separator_re 0 acc a)
      ++ kept_pieces (Regex.split_from separator_re 0 [] b).
Proof.
  induction n as [|n IH]; intros a acc b Hlen.
  - destruct a; [|simpl in Hlen; lia].
    rewrite app_nil_l.
    assert (Hsep : sep_len (newline :: b)
                   = Some (S (Regex.run_len Char.is_delim b))).
    { rewrite sep_len_delim; [done|]. simpl. lia. }
    rewrite (split_at_separator _ _ _ Hsep). simpl drop.
    rewrite kept_pieces_cons, kept_pieces_after_delims. simpl.
    by rewrite (kept_pieces_cons acc []), app_nil_r.
  - destruct a as [|c a'].
    { apply (IH []). simpl. lia. }
    remember (c :: a') as a eqn:Hadef.
    assert (Halen : length a = S (length a')) by (by subst a).
    pose proof (RegexFacts.run_len_le Char.is_delim a) as Hdle.
    pose proof (RegexFacts.run_len_le Char.is_space a) as Hwle.
    assert (Hnl_d : Regex.run_len Char.is_delim (newline :: b)
                    = S (Regex.run_len Char.is_delim b)) by done.
    assert (Hnl_w : Regex.run_len Char.is_space (newline :: b)
                    = S (Regex.run_len Char.is_space b)) by done.
    destruct (decide (Regex.run_len Char.is_delim a = length a)) as [Hdall|Hdall].
    + (* [a] is a run of delimiters *)
      pose proof (run_len_full _ _ Hdall) as Hfa.
      assert (HJ : sep_len (a ++ newline :: b)
                   = Some (length a + S (Regex.run_len Char.is_delim b))).
      { rewrite sep_len_delim; rewrite run_len_app_all, Hnl_d by done;
          [done|lia]. }
      assert (HA : sep_len a = Some (length a)).
      { rewrite sep_len_delim; rewrite Hdall; [done|lia]. }
      rewrite (split_at_separator _ _ _ HJ), (split_at_separator _ _ _ HA).
      rewrite drop_app_ge by lia.
      replace (length a + S (Regex.run_len Char.is_delim b) - length a)
        with (S (Regex.run_len Char.is_delim b)) by lia.
      simpl drop. rewrite drop_all. simpl.
      rewrite !kept_pieces_cons, kept_pieces_after_delims.
      simpl. by rewrite app_nil_r.
    + assert (HdJ : Regex.run_len Char.is_delim (a ++ newline :: b)
                    = Regex.run_len Char.is_delim a)
        by (apply run_len_app_short; lia).
      destruct (decide (1 ≤ Regex.run_len Char.is_delim a)) as [Hd1|Hd0].
      * (* a separator of delimiters inside [a] *)
        assert (HA : sep_len a = Some (Regex.run_len Char.is_delim a))
          by (by apply sep_len_delim).
        assert (HJ : sep_len (a ++ newline :: b)
                     = Some (Regex.run_len Char.is_delim a)).
        { rewrite sep_len_delim; rewrite HdJ; done. }
        rewrite (split_at_separator _ _ _ HJ), (split_at_separator _ _ _ HA).
        rewrite drop_app_le by lia.
        rewrite !kept_pieces_cons, IH; [by rewrite app_assoc|].
        rewrite length_drop. lia.
      * assert (HdA0 : Regex.run_len Char.is_delim a = 0) by lia.
        assert (HdJ0 : Regex.run_len Char.is_delim (a ++ newline :: b) = 0)
          by lia.
        destruct (decide (Regex.run_len Char.is_space a = length a))
          as [Hwall|Hwall].
        -- (* [a] is white space to its end *)
           pose proof (run_len_full _ _ Hwall) as Hfa.
           assert (HJ : sep_len (a ++ newline :: b)
                        = Some (length a + S (Regex.run_len Char.is_space b))).
           { rewrite sep_len_space; rewrite ?run_len_app_all, ?Hnl_w by done;
               [done|done|lia]. }
           rewrite (split_at_separator _ _ _ HJ).
           rewrite drop_app_ge by lia.
           replace (length a + S (Regex.run_len Char.is_space b) - length a)
             with (S (Regex.run_len Char.is_space b)) by lia.
           simpl drop.
           rewrite kept_pieces_cons, kept_pieces_after_space.
           rewrite (kept_pieces_only_space (length a) a acc) by done.
           by rewrite (kept_pieces_cons acc []), app_nil_r.
        -- assert (HwJ : Regex.run_len Char.is_space (a ++ newline :: b)
                         = Regex.run_len Char.is_space a)
             by (apply run_len_app_short; lia).
           destruct (decide (2 ≤ Regex.run_len Char.is_space a)) as [Hw2|Hw2].
           ++ assert (HA : sep_len a = Some (Regex.run_len Char.is_space a))
                by (by apply sep_len_space).
              assert (HJ : sep_len (a ++ newline :: b)
                           = Some (Regex.run_len Char.is_space a)).
              { rewrite sep_len_space; rewrite ?HwJ; done. }
              rewrite (split_at_separator _ _ _ HJ),
                (split_at_separator _ _ _ HA).
              rewrite drop_app_le by lia.
              rewrite !kept_pieces_cons, IH; [by rewrite app_assoc|].
              rewrite length_drop. lia.
           ++ assert (HA : sep_len a = None)
                by (apply sep_len_neither; [done|lia]).
              assert (HJ : sep_len (a ++ newline :: b) = None)
                by (apply sep_len_neither; [done|lia]).
              subst a. change ((c :: a') ++ newline :: b)
                with (c :: a' ++ newline :: b) in *.
              rewrite (split_at_char _ _ _ HJ), (split_at_char _ _ _ HA).
              apply IH. simpl in Hlen. lia.
Qed.

Lemma replace_nbsp_newline (a b : list N) :
  Str.replace_nbsp (a ++ newline :: b)
  = Str.replace_nbsp a ++ newline :: Str.replace_nbsp b.
Proof. unfold Str.replace_nbsp. by rewrite fmap_app, fmap_cons. Qed.

Lemma candidates_newline (a b : list N) :
  candidates (a ++ newline :: b) = candidates a ++ candidates b.
Proof.
  unfold candidates, Regex.split. rewrite replace_nbsp_newline.
  exact (kept_pieces_newline _ _ [] _ (Nat.le_refl _)).
Qed.

Lemma candidates_join (xs : list (list N)) :
  candidates (join [newline] xs) = concat (candidates <$> xs).
Proof.
  induction xs as [|x xs IH]; [done|].
  destruct xs as [|y xs].
  - simpl. by rewrite app_nil_r.
  - rewrite join_cons by done.
    change (x ++ [newline] ++ join [newline] (y :: xs))
      with (x ++ newline :: join [newline] (y :: xs)).
    by rewrite candidates_newline, IH.
Qed.

(** X15: the delimiter split works line by line: the candidates of a
    text are the candidates of each of its lines, in order (a separator
    never reaches across a line break, and a cut at a line break never
    changes what the lines yield). *)
Theorem candidates_line_by_line (a b : list N) (lines : list (list N)) :
  candidates (a ++ newline :: b) = candidates a ++ candidates b
  ∧ candidates (join [newline] lines) = concat (candidates <$> lines).
Proof. split; [apply candidates_newline|apply candidates_join]. Qed.

(** X16: an upload appends to the text: the candidates afterwards are
    the candidates of the text before, followed by those of every cell
    of the file in row order; an upload into an empty text adds no
    leading line. *)
Theorem upload_candidates (prev : list N) (data : list (list (list N))) :
  candidates (append_upload prev (upload_text data))
  = candidates prev ++ concat (candidates <$> concat data)
  ∧ append_upload [] (upload_text data) = upload_text data.
Proof.
  split; [|done]. unfold append_upload, upload_text.
  destruct prev as [|c prev]; simpl Str.truthy; cbv iota.
  - rewrite app_nil_l, candidates_join.
    by replace (candidates []) with (@nil (list N)) by (by vm_compute).
  - rewrite <- app_assoc.
    change ([newline] ++ join [newline] (concat data))
      with (newline :: join [newline] (concat data)).
    by rewrite candidates_newline, candidates_join.
Qed.

Example upload_two_rows :
  candidates (append_upload (js "+977 9812345678")
                (upload_text [[js "a"; js " 12  34 "]; [js "x,y"]]))
  = [js "+977 9812345678"; js "a"; js "12"; js "34"; js "x"; js "y"].
Proof. by vm_compute. Qed.

(** ** The embedded scan over numbers joined by newlines *)

Lemma backtrack_first k lo cont j n :
  lo ≤ j → j ≤ k → cont j = Some n →
  (∀ i, j < i → i ≤ k → cont i = None) →
  Regex.backtrack k lo cont = Some (j + n).
Proof.
  intros Hlo. induction k as [|k IH]; intros Hjk Hj Hnone.
  - assert (j = 0) as -> by lia. simpl.
    replace (0 <? lo) with false by (symmetry; apply Nat.ltb_ge; lia).
    by rewrite Hj.
  - simpl. replace (S k <? lo) with false by (symmetry; apply Nat.ltb_ge; lia).
    destruct (decide (j = S k)) as [->|Hne]; [by rewrite Hj|].
    rewrite Hnone by lia. apply IH; [lia|done|].
    intros i Hi1 Hi2. apply Hnone; lia.
Qed.

Lemma backtrack_none k lo cont :
  (∀ i, lo ≤ i → i ≤ k → cont i = None) → Regex.backtrack k lo cont = None.
Proof.
  induction k as [|k IH]; intros Hnone; simpl.
  - destruct (0 <? lo) eqn:Hlo; [done|]. apply Nat.ltb_ge in Hlo.
    by rewrite Hnone by lia.
  - destruct (S k <? lo) eqn:Hlo; [done|]. apply Nat.ltb_ge in Hlo.
    rewrite Hnone by lia. apply IH. intros i Hi1 Hi2. apply Hnone; lia.
Qed.

Lemma match_one_digit (s : list N) :
  Regex.match_seq [Regex.Piece Char.is_digit 1 (Some 1)] s
  = match s with
    | c :: _ => if Char.is_digit c then Some 1 else None
    | [] => None
    end.
Proof.
  unfold Regex.match_seq, Regex.greedy_count. simpl Regex.rmax.
  simpl Regex.rmin. simpl Regex.cls. cbv iota.
  rewrite backtrack_const.
  destruct s as [|c s]; [done|]. simpl. by destruct (Char.is_digit c).
Qed.

Lemma digit_is_body c : Char.is_digit c = true → Char.is_body c = true.
Proof. unfold Char.is_body. by intros ->. Qed.

Lemma tail_ok_body_run t : tail_ok t → Regex.run_len Char.is_body t ≤ 1.
Proof. intros [->|(t' & ->)]; simpl; lia. Qed.

Lemma tail_ok_no_digit t i :
  tail_ok t → i ≤ 1 →
  Regex.match_seq [Regex.Piece Char.is_digit 1 (Some 1)] (drop i t) = None.
Proof.
  intros Ht Hi. rewrite match_one_digit.
  destruct Ht as [->|(t' & ->)]; [by rewrite drop_nil|].
  destruct i as [|[|i]]; [done|done|lia].
Qed.

Lemma match_body_digit (ds t : list N) :
  Forall (λ c, Char.is_digit c = true) ds → tail_ok t →
  Regex.match_seq [ Regex.Piece Char.is_body 5 None;
                    Regex.Piece Char.is_digit 1 (Some 1) ] (ds ++ t)
  = if 6 <=? length ds then Some (length ds) else None.
Proof.
  intros Hds Ht.
  change (Regex.match_seq _ (ds ++ t))
    with (Regex.backtrack (Regex.run_len Char.is_body (ds ++ t)) 5
            (λ k, Regex.match_seq [Regex.Piece Char.is_digit 1 (Some 1)]
                    (drop k (ds ++ t)))).
  assert (Hrun : Regex.run_len Char.is_body (ds ++ t)
                 = length ds + Regex.run_len Char.is_body t).
  { apply run_len_app_all. eapply Forall_impl; [exact Hds|].
    intros c. apply digit_is_body. }
  pose proof (tail_ok_body_run t Ht) as Htl.
  assert (Hafter : ∀ i, length ds ≤ i → i ≤ length ds + 1 →
            Regex.match_seq [Regex.Piece Char.is_digit 1 (Some 1)]
              (drop i (ds ++ t)) = None).
  { intros i Hi1 Hi2. rewrite drop_app_ge by done.
    apply tail_ok_no_digit; [done|lia]. }
  destruct (6 <=? length ds) eqn:H6.
  - apply Nat.leb_le in H6.
    transitivity (Some (pred (length ds) + 1)); [|f_equal; lia].
    apply (backtrack_first _ _ _ (pred (length ds)) 1); [lia|lia| |].
    + rewrite match_one_digit.
      destruct (drop (pred (length ds)) (ds ++ t)) as [|c s'] eqn:Hdrop.
      { apply (f_equal length) in Hdrop.
        rewrite length_drop, length_app in Hdrop. simpl in Hdrop. lia. }
      assert (Hc : (ds ++ t) !! pred (length ds) = Some c).
      { rewrite <- (Nat.add_0_r (pred (length ds))), <- lookup_drop.
        by rewrite Hdrop. }
      rewrite lookup_app_l in Hc by lia.
      rewrite Forall_forall in Hds.
      by rewrite (Hds c (list_elem_of_lookup_2 _ _ _ Hc)).
    + intros i Hi1 Hi2. apply Hafter; lia.
  - apply Nat.leb_gt in H6. apply backtrack_none.
    intros i Hi1 Hi2. apply Hafter; lia.
Qed.

Lemma backtrack_one cont :
  Regex.backtrack 1 1 cont
  = match cont 1 with Some n => Some (S n) | None => None end.
Proof. simpl. by destruct (cont 1). Qed.

Lemma backtrack_optional cont :
  Regex.backtrack 1 0 cont
  = match cont 1 with
    | Some n => Some (S n)
    | None => match cont 0 with Some n => Some n | None => None end
    end.
Proof. simpl. destruct (cont 1); [done|]. by destruct (cont 0). Qed.

Lemma match_digits_rest (ds t : list N) :
  Forall (λ c, Char.is_digit c = true) ds → tail_ok t →
  Regex.match_seq [ Regex.Piece Char.is_digit 1 (Some 1);
                    Regex.Piece Char.is_body 5 None;
                    Regex.Piece Char.is_digit 1 (Some 1) ] (ds ++ t)
  = if 7 <=? length ds then Some (length ds) else None.
Proof.
  intros Hds Ht.
  change (Regex.match_seq _ (ds ++ t))
    with (Regex.backtrack (Nat.min 1 (Regex.run_len Char.is_digit (ds ++ t))) 1
            (λ k, Regex.match_seq [ Regex.Piece Char.is_body 5 None;
                                    Regex.Piece Char.is_digit 1 (Some 1) ]
                    (drop k (ds ++ t)))).
  destruct ds as [|d ds].
  - assert (Hr : Regex.run_len Char.is_digit ([] ++ t) = 0)
      by (by destruct Ht as [->|(t' & ->)]).
    by rewrite Hr.
  - apply Forall_cons in Hds as [Hd Hds].
    assert (Hr : Nat.min 1 (Regex.run_len Char.is_digit ((d :: ds) ++ t)) = 1)
      by (simpl; rewrite Hd; lia).
    rewrite Hr, backtrack_one.
    change (drop 1 ((d :: ds) ++ t)) with (ds ++ t).
    rewrite (match_body_digit ds t Hds Ht). simpl length.
    destruct ds as [|? [|? [|? [|? [|? [|? ds]]]]]]; done.
Qed.

Lemma match_rest_needs_digit (s : list N) :
  match s with c :: _ => Char.is_digit c = false | [] => True end →
  Regex.match_seq [ Regex.Piece Char.is_digit 1 (Some 1);
                    Regex.Piece Char.is_body 5 None;
                    Regex.Piece Char.is_digit 1 (Some 1) ] s = None.
Proof.
  intros Hs.
  change (Regex.match_seq _ s)
    with (Regex.backtrack (Nat.min 1 (Regex.run_len Char.is_digit s)) 1
            (λ k, Regex.match_seq [ Regex.Piece Char.is_body 5 None;
                                    Regex.Piece Char.is_digit 1 (Some 1) ]
                    (drop k s))).
  assert (Hr : Regex.run_len Char.is_digit s = 0).
  { destruct s as [|c s]; [done|]. simpl. by rewrite Hs. }
  by rewrite Hr.
Qed.

Lemma embedded_re_unfold (s : list N) :
  Regex.match_at embedded_re s
  = Regex.backtrack (Nat.min 1 (Regex.run_len Char.is_plus s)) 0
      (λ k, Regex.match_seq [ Regex.Piece Char.is_digit 1 (Some 1);
                              Regex.Piece Char.is_body 5 None;
                              Regex.Piece Char.is_digit 1 (Some 1) ]
              (drop k s)).
Proof.
  unfold embedded_re, Regex.match_at.
  change (Regex.match_seq _ s)
    with (Regex.backtrack (Nat.min 1 (Regex.run_len Char.is_plus s)) 0
            (λ k, Regex.match_seq [ Regex.Piece Char.is_digit 1 (Some 1);
                                    Regex.Piece Char.is_body 5 None;
                                    Regex.Piece Char.is_digit 1 (Some 1) ]
                    (drop k s))).
  by destruct (Regex.backtrack _ _ _).
Qed.

Lemma run_len_cons p c (s : list N) :
  Regex.run_len p (c :: s) = if p c then S (Regex.run_len p s) else 0.
Proof. reflexivity. Qed.

Lemma match_at_key d (ds t : list N) :
  Char.is_digit d = true → Forall (λ c, Char.is_digit c = true) ds →
  tail_ok t →
  Regex.match_at embedded_re (Char.plus :: (d :: ds) ++ t)
  = if 7 <=? length (d :: ds) then Some (S (length (d :: ds))) else None.
Proof.
  intros Hd Hds Ht. rewrite embedded_re_unfold.
  assert (Hr : Nat.min 1 (Regex.run_len Char.is_plus
                            (Char.plus :: (d :: ds) ++ t)) = 1).
  { change ((d :: ds) ++ t) with (d :: ds ++ t).
    rewrite !run_len_cons, (digit_not_plus d Hd). done. }
  rewrite Hr, backtrack_optional.
  change (drop 1 (Char.plus :: (d :: ds) ++ t)) with ((d :: ds) ++ t).
  rewrite (match_digits_rest (d :: ds) t (Forall_cons_2 _ _ _ Hd Hds) Ht).
  destruct (7 <=? length (d :: ds)); [done|].
  change (drop 0 (Char.plus :: (d :: ds) ++ t))
    with (Char.plus :: (d :: ds) ++ t).
  by rewrite match_rest_needs_digit.
Qed.

Lemma match_at_short_digits (ds t : list N) :
  Forall (λ c, Char.is_digit c = true) ds → length ds ≤ 6 → tail_ok t →
  Regex.match_at embedded_re (ds ++ t) = None.
Proof.
  intros Hds Hlen Ht. rewrite embedded_re_unfold.
  assert (Hr : Regex.run_len Char.is_plus (ds ++ t) = 0).
  { destruct ds as [|d ds].
    - by destruct Ht as [->|(t' & ->)].
    - apply Forall_cons in Hds as [Hd _].
      change ((d :: ds) ++ t) with (d :: ds ++ t).
      by rewrite run_len_cons, (digit_not_plus d Hd). }
  rewrite Hr. simpl Nat.min. apply backtrack_none.
  intros i _ Hi. assert (i = 0) as -> by lia.
  change (drop 0 (ds ++ t)) with (ds ++ t).
  rewrite (match_digits_rest ds t Hds Ht).
  by replace (7 <=? length ds) with false by (symmetry; apply Nat.leb_gt; lia).
Qed.

Lemma match_at_newline (s : list N) :
  Regex.match_at embedded_re (newline :: s) = None.
Proof.
  rewrite embedded_re_unfold. simpl Regex.run_len. simpl Nat.min.
  apply backtrack_none. intros i _ Hi. assert (i = 0) as -> by lia.
  by apply match_rest_needs_digit.
Qed.

Lemma match_all_from_try r c (s : list N) :
  Regex.match_all_from r 0 (c :: s)
  = match Regex.match_at r (c :: s) with
    | Some (S n) => take (S n) (c :: s) :: Regex.match_all_from r n s
    | _ => Regex.match_all_from r 0 s
    end.
Proof. reflexivity. Qed.

Lemma match_all_from_drop r n (s : list N) :
  n ≤ length s →
  Regex.match_all_from r n s = Regex.match_all_from r 0 (drop n s).
Proof.
  revert n. induction s as [|c s IH]; intros n Hn.
  - simpl in Hn. by replace n with 0 by lia.
  - destruct n as [|n]; [done|]. simpl in Hn.
    change (Regex.match_all_from r (S n) (c :: s))
      with (Regex.match_all_from r n s).
    simpl drop. apply IH. lia.
Qed.

Lemma scan_short_digits (ds t : list N) :
  Forall (λ c, Char.is_digit c = true) ds → length ds ≤ 6 → tail_ok t →
  Regex.match_all_from embedded_re 0 (ds ++ t)
  = Regex.match_all_from embedded_re 0 t.
Proof.
  intros Hds. induction Hds as [|d ds Hd Hds IH]; intros Hlen Ht; [done|].
  change ((d :: ds) ++ t) with (d :: ds ++ t).
  rewrite match_all_from_try.
  change (d :: ds ++ t) with ((d :: ds) ++ t).
  rewrite (match_at_short_digits (d :: ds) t (Forall_cons_2 _ _ _ Hd Hds)
             Hlen Ht).
  apply IH; [simpl in Hlen; lia|done].
Qed.

Lemma scan_key d (ds t : list N) :
  Char.is_digit d = true → Forall (λ c, Char.is_digit c = true) ds →
  tail_ok t →
  Regex.match_all_from embedded_re 0 (Char.plus :: (d :: ds) ++ t)
  = (if 7 <=? length (d :: ds) then [Char.plus :: d :: ds] else [])
    ++ Regex.match_all_from embedded_re 0 t.
Proof.
  intros Hd Hds Ht. rewrite match_all_from_try, match_at_key by done.
  destruct (7 <=? length (d :: ds)) eqn:H7.
  - rewrite match_all_from_drop by (rewrite length_app; lia).
    rewrite drop_app_length.
    change (take (S (length (d :: ds))) (Char.plus :: (d :: ds) ++ t))
      with (Char.plus :: take (length (d :: ds)) ((d :: ds) ++ t)).
    by rewrite take_app_length.
  - apply Nat.leb_gt in H7.
    apply scan_short_digits; [by constructor|lia|done].
Qed.

Lemma join_e164_head (ks : list (list N)) k :
  Forall e164_shape (k :: ks) →
  ∃ t', join [newline] (k :: ks) = Char.plus :: t'.
Proof.
  intros Hk. apply Forall_cons in Hk as [(d & ds & -> & _) _].
  destruct ks as [|k' ks]; simpl; eauto.
Qed.

Lemma scan_join (ks : list (list N)) :
  Forall e164_shape ks →
  Regex.match_all embedded_re (join [newline] ks)
  = filter (λ k, 8 ≤ length k) ks.
Proof.
  unfold Regex.match_all.
  induction ks as [|k ks IH]; intros Hks; [done|].
  pose proof Hks as Hks'.
  apply Forall_cons in Hks as [(d & ds & -> & Hd & _ & Hds) Hrest].
  assert (Hfilter : ∀ l, filter (λ k, 8 ≤ length k) ((Char.plus :: d :: ds) :: l)
            = (if 7 <=? length (d :: ds) then [Char.plus :: d :: ds] else [])
              ++ filter (λ k, 8 ≤ length k) l).
  { intros l. rewrite filter_cons. simpl length.
    destruct (7 <=? S (length ds)) eqn:H7.
    - apply Nat.leb_le in H7. by rewrite decide_True by lia.
    - apply Nat.leb_gt in H7. by rewrite decide_False by lia. }
  rewrite Hfilter. destruct ks as [|k' ks].
  - replace (join [newline] [Char.plus :: d :: ds])
      with (Char.plus :: (d :: ds) ++ []) by (simpl; by rewrite app_nil_r).
    rewrite (scan_key d ds [] Hd Hds (or_introl eq_refl)). done.
  - destruct (join_e164_head ks k' Hrest) as (t' & Ht').
    rewrite join_cons by done.
    change ((Char.plus :: d :: ds) ++ [newline] ++ join [newline] (k' :: ks))
      with (Char.plus :: (d :: ds) ++ newline :: join [newline] (k' :: ks)).
    rewrite scan_key; [|done|done|right; exists t'; by rewrite Ht'].
    rewrite match_all_from_try, match_at_newline. by rewrite IH.
Qed.

(** ** Pasting back what was copied *)

Lemma trim_plain (k : list N) :
  Forall (λ c, Char.is_space c = false) k → Str.trim k = k.
Proof.
  intros Hk.
  assert (Hdw : ∀ l, Forall (λ c, Char.is_space c = false) l →
            Str.drop_while Char.is_space l = l).
  { intros l Hl. destruct Hl as [|c l Hc Hl]; [done|]. simpl. by rewrite Hc. }
  unfold Str.trim. rewrite (Hdw k Hk), Hdw; [apply rev_involutive|].
  apply Forall_forall. intros c Hc. rewrite Forall_forall in Hk.
  apply Hk, list_elem_of_In, in_rev. by apply list_elem_of_In.
Qed.

Lemma split_plain (acc k : list N) :
  Forall (λ c, Char.is_space c = false ∧ Char.is_delim c = false) k →
  Regex.split_from separator_re 0 acc k = [acc ++ k].
Proof.
  intros Hk. revert acc.
  induction Hk as [|c k [Hs Hd] Hk IH]; intros acc.
  - by rewrite app_nil_r.
  - rewrite split_at_char.
    + rewrite IH. by rewrite <- app_assoc.
    + apply sep_len_neither; rewrite run_len_cons; [by rewrite Hd|].
      rewrite Hs. lia.
Qed.

Lemma candidates_plain (k : list N) :
  k ≠ [] →
  Forall (λ c, Char.is_space c = false ∧ Char.is_delim c = false) k →
  candidates k = [k].
Proof.
  intros Hne Hk. unfold candidates, Regex.split.
  assert (Hrep : Str.replace_nbsp k = k).
  { unfold Str.replace_nbsp. rewrite <- (list_fmap_id k) at 2.
    apply fmap_ext_elem. intros c Hc. rewrite Forall_forall in Hk.
    destruct (Hk c Hc) as [Hs _]. unfold Char.is_nbsp.
    destruct (c =? 160)%N eqn:Hn; [|done].
    apply N.eqb_eq in Hn. by subst c. }
  rewrite Hrep, split_plain by done. simpl.
  rewrite trim_plain by (eapply Forall_impl; [exact Hk|]; by intros c [? _]).
  rewrite filter_cons, decide_True by (by destruct k). done.
Qed.

Lemma e164_shape_plain (k : list N) :
  e164_shape k →
  k ≠ [] ∧ Forall (λ c, Char.is_space c = false ∧ Char.is_delim c = false) k.
Proof.
  intros (d & ds & -> & Hd & _ & Hds). split; [done|].
  constructor; [done|]. constructor.
  - split; [by apply digit_not_space|by apply digit_not_delim].
  - eapply Forall_impl; [exact Hds|]. intros c Hc.
    split; [by apply digit_not_space|by apply digit_not_delim].
Qed.

Lemma cleanToken_e164 (k : list N) : e164_shape k → cleanToken k = k.
Proof.
  intros (d & ds & -> & Hd & Hz & Hds). rewrite cleanToken_digits.
  assert (Hp : Str.includes_plus (Char.plus :: d :: ds) = true) by done.
  rewrite Hp, filter_cons, decide_False by (by intros ?).
  rewrite filter_digits_id by (by constructor). simpl.
  replace (Char.is_zero d) with false; [done|].
  symmetry. unfold Char.is_zero. apply N.eqb_neq. exact Hz.
Qed.

Lemma candidates_e164 (ks : list (list N)) :
  Forall e164_shape ks → candidates (join [newline] ks) = ks.
Proof.
  intros Hks. rewrite candidates_join.
  induction Hks as [|k ks Hk Hks IH]; [done|].
  destruct (e164_shape_plain k Hk) as [Hne Hpl].
  rewrite fmap_cons, (candidates_plain k Hne Hpl). simpl. by rewrite IH.
Qed.

Lemma embedded_e164 (ks : list (list N)) :
  Forall e164_shape ks →
  embedded (join [newline] ks) = filter (λ k, 8 ≤ length k) ks.
Proof.
  intros Hks. unfold embedded. rewrite (scan_join ks Hks).
  rewrite <- (list_fmap_id (filter _ ks)) at 2.
  apply fmap_ext_elem. intros k [_ Hk]%list_elem_of_filter.
  rewrite Forall_forall in Hks.
  destruct (e164_shape_plain k (Hks k Hk)) as [_ Hpl].
  apply trim_plain. eapply Forall_impl; [exact Hpl|]. by intros c [? _].
Qed.

(** X17: what [Copy Selected] and [Copy All] write can be pasted back:
    for numbers in E.164 form ([+], a first digit that is not zero, more
    digits), a selection joined by newlines tokenizes to exactly the
    selected numbers in their order, and cleaning leaves each of them
    as it is; the same holds for the [e164] column of a group. *)
Theorem copy_paste_round_trip (selected : list (list N)) :
  NoDup selected → Forall e164_shape selected →
  tokenize (copy_selected selected) = selected
  ∧ cleanToken <$> tokenize (copy_selected selected) = selected
  ∧ ∀ l : list ParsedRow,
      (λ r, default [] (e164 r)) <$> l = selected →
      tokenize (copy_all l) = selected.
Proof.
  intros Hnd Hks.
  assert (Htok : tokenize (join [newline] selected) = selected).
  { unfold tokenize.
    rewrite array_from_set_firsts, firsts_by_id_app.
    rewrite (candidates_e164 selected Hks), (embedded_e164 selected Hks).
    pose proof (array_from_set_NoDup_id selected Hnd) as Hid.
    rewrite array_from_set_firsts in Hid. rewrite Hid.
    rewrite filter_none; [by rewrite app_nil_r|].
    apply Forall_forall. intros k Hk Hnot. apply Hnot.
    rewrite firsts_by_id_elem in Hk.
    by apply list_elem_of_filter in Hk as [_ ?]. }
  split; [exact Htok|]. split.
  - unfold copy_selected. rewrite Htok.
    rewrite <- (list_fmap_id selected) at 2.
    apply fmap_ext_elem. intros k Hk. rewrite Forall_forall in Hks.
    by apply cleanToken_e164, Hks.
  - intros l Hl. unfold copy_all. by rewrite Hl.
Qed.

Lemma copy_paste_round_trip_witness :
  let selected := [js "+9779812345678"; js "+14155550123"; js "+4420"] in
  NoDup selected ∧ Forall e164_shape selected
  ∧ tokenize (copy_selected selected) = selected
  ∧ cleanToken <$> tokenize (copy_selected selected) = selected
  ∧ ∀ l : list ParsedRow,
      (λ r, default [] (e164 r)) <$> l = selected →
      tokenize (copy_all l) = selected.
Proof.
  intros selected.
  assert (Hnd : NoDup selected)
    by (apply (bool_decide_unpack _); by vm_compute).
  assert (Hks : Forall e164_shape selected).
  { repeat apply Forall_cons_2; [| | |apply Forall_nil_2].
    - exists 57%N, (js "779812345678"). repeat split; [done|].
      apply (bool_decide_unpack _). by vm_compute.
    - exists 49%N, (js "4155550123"). repeat split; [done|].
      apply (bool_decide_unpack _). by vm_compute.
    - exists 52%N, (js "420"). repeat split; [done|].
      apply (bool_decide_unpack _). by vm_compute. }
  split; [exact Hnd|]. split; [exact Hks|].
  exact (copy_paste_round_trip selected Hnd Hks).
Defined.

(** ** Tokens *)

(** X18: no token is empty and no token has white space at either
    end, whether it comes from the delimiter split or from the embedded
    scan; so the [raw] field of a record is never empty or padded. *)
Theorem tokens_trimmed (input : list N) :
  Forall (λ t, t ≠ [] ∧ Str.trim t = t) (tokenize input).
Proof.
  apply Forall_forall. intros t Ht. unfold tokenize in Ht.
  rewrite array_from_set_elem, elem_of_app in Ht.
  destruct Ht as [Ht|Ht].
  - unfold candidates in Ht.
    apply list_elem_of_filter in Ht as [Htr Ht].
    apply list_elem_of_fmap in Ht as (p & -> & _).
    split; [by destruct (Str.trim p)|apply trim_idempotent].
  - unfold embedded in Ht.
    apply list_elem_of_fmap in Ht as (m & -> & Hm).
    apply match_all_embedded in Hm as [Hs _].
    rewrite (embedded_shape_trim m Hs).
    split; [|by apply embedded_shape_trim].
    destruct Hs as (p & d & body & e & -> & _). by destruct p.
Qed.
